(** * WebMania beatmap parser: [src/modules/parser.ts]

    A shallow embedding of the [.osu] parser ([parseOsuFile] and its three
    extractors) and of [organizeNotesByColumn], followed by the properties
    of the specification that were checked against it.

    Conventions of the embedding.
    - A JavaScript string is the list of its UTF-16 code units ([str]).
    - A regular expression literal is a term of type [regex], run by a
      backtracking matcher ([run]) that returns the end states of every way
      to match, in the order in which a backtracking engine tries them; the
      first one is the match JavaScript reports.
    - Numbers are exact: an integer field is a [Z], a decimal one a [Q], and
      the result of [parseInt] or [parseFloat] is a [number], which may be
      [NaN].  The rounding of IEEE doubles (integers beyond 2^53, decimal
      fractions) is not modelled.
    - A function that can throw returns an [outcome].
    - Record fields keep their names; [time] of [TimingPoint] is [tp_time],
      since [HitObject] has a field of the same name. *)

From Stdlib Require Import Strings.String Strings.Ascii.
From Stdlib Require Import List Bool Arith NArith ZArith QArith Qround Lia Lqa.
From Stdlib Require Import Sorting.Sorted Sorting.Permutation.
Import ListNotations.

Local Open Scope list_scope.

(* ================================================================== *)
(** ** Strings and character classes *)

Definition char := N.
Definition str := list char.

(** The code units of an ASCII literal. *)
Definition lit (s : string) : str :=
  List.map N_of_ascii (list_ascii_of_string s).

Definition char_eqb (a b : char) : bool := N.eqb a b.

Definition in_range (lo hi c : N) : bool := (N.leb lo c && N.leb c hi)%bool.

(** [\d] *)
Definition isDigit (c : char) : bool := in_range 48 57 c.

(** LineTerminator: LF, CR, LS, PS. *)
Definition isLineTerminator (c : char) : bool :=
  (N.eqb c 10 || N.eqb c 13 || N.eqb c 8232 || N.eqb c 8233)%bool.

(** [\s], also the set removed by [String.prototype.trim]:
    WhiteSpace and LineTerminator code units. *)
Definition isWhiteSpace (c : char) : bool :=
  (in_range 9 13 c || N.eqb c 32 || N.eqb c 160 || N.eqb c 5760
   || in_range 8192 8202 c || N.eqb c 8232 || N.eqb c 8233
   || N.eqb c 8239 || N.eqb c 8287 || N.eqb c 12288 || N.eqb c 65279)%bool.

(** [.] without the [s] flag. *)
Definition isDot (c : char) : bool := negb (isLineTerminator c).

(** [[\s\S]] *)
Definition isAny (c : char) : bool := (isWhiteSpace c || negb (isWhiteSpace c))%bool.

(** [[^,]] *)
Definition notComma (c : char) : bool := negb (N.eqb c 44).

(** [[\d.]] *)
Definition isDigitOrDot (c : char) : bool := (isDigit c || N.eqb c 46)%bool.

(** [[01]] *)
Definition isBit (c : char) : bool := (N.eqb c 48 || N.eqb c 49)%bool.

(** Canonicalize of the [i] flag (no [u] flag).  Every pattern character of
    the source is ASCII, and a code unit above 127 never canonicalizes to
    an ASCII one, so only the ASCII letters need folding. *)
Definition canon (c : char) : char :=
  if in_range 97 122 c then (c - 32)%N else c.

Fixpoint dropWhile {A} (p : A -> bool) (l : list A) : list A :=
  match l with
  | [] => []
  | x :: l' => if p x then dropWhile p l' else l
  end.

Fixpoint takeWhile {A} (p : A -> bool) (l : list A) : list A :=
  match l with
  | [] => []
  | x :: l' => if p x then x :: takeWhile p l' else []
  end.

(** [String.prototype.trim] *)
Definition trim (s : str) : str :=
  rev (dropWhile isWhiteSpace (rev (dropWhile isWhiteSpace s))).

(** [String.prototype.startsWith] *)
Fixpoint startsWith (s p : str) : bool :=
  match p, s with
  | [], _ => true
  | _ :: _, [] => false
  | a :: p', b :: s' => (char_eqb a b && startsWith s' p')%bool
  end.

(* ================================================================== *)
(** ** Numbers *)

(** A JavaScript number that is [NaN] or a finite value of type [A]. *)
Inductive number (A : Type) : Type :=
| NaN : number A
| Num : A -> number A.
Arguments NaN {A}.
Arguments Num {A} _.

Definition digitVal (c : char) : Z := Z.of_N (c - 48).

Definition digitsVal (ds : str) : Z :=
  fold_left (fun acc c => (10 * acc + digitVal c)%Z) ds 0%Z.

(** [parseInt(s)] on a capture group: [undefined] and a text without a
    leading digit give [NaN]; otherwise the value of the leading run of
    decimal digits.  (Sign, leading blanks and the [0x] prefix, which no
    capture of the source can carry, are left out.) *)
Definition parseInt (s : option str) : number Z :=
  match s with
  | None => NaN
  | Some s =>
      match takeWhile isDigit s with
      | [] => NaN
      | ds => Num (digitsVal ds)
      end
  end.

(** [parseFloat(s)] on a capture group: optional [-], digits, optional
    [.] and digits; the longest such prefix is read, [NaN] when it holds no
    digit.  (Exponents and leading blanks cannot occur in a capture of the
    source.) *)
Definition parseUnsigned (s : str) : number Q :=
  let ip := takeWhile isDigit s in
  let fp := match dropWhile isDigit s with
            | c :: r => if N.eqb c 46 then takeWhile isDigit r else []
            | [] => []
            end in
  match ip ++ fp with
  | [] => NaN
  | ds => Num (Qmake (digitsVal ds) (Z.to_pos (10 ^ Z.of_nat (length fp))))
  end.

Definition parseFloat (s : option str) : number Q :=
  match s with
  | None => NaN
  | Some (c :: s') =>
      if N.eqb c 45
      then match parseUnsigned s' with
           | NaN => NaN
           | Num q => Num (Qopp q)
           end
      else parseUnsigned (c :: s')
  | Some [] => NaN
  end.

(** Truthiness of a number: [NaN] and zero are falsy. *)
Definition truthyZ (n : Z) : bool := negb (Z.eqb n 0).
Definition truthyQ (q : Q) : bool := negb (Qeq_bool q 0).

(* ================================================================== *)
(** ** Outcomes of functions that may throw *)

Inductive exn : Type :=
| Error (message : string)
| TypeError.

Inductive outcome (A : Type) : Type :=
| Return (a : A)
| Throw (e : exn).
Arguments Return {A} _.
Arguments Throw {A} _.

Definition bind {A B} (m : outcome A) (f : A -> outcome B) : outcome B :=
  match m with
  | Return a => f a
  | Throw e => Throw e
  end.

(* ================================================================== *)
(** ** Regular expressions *)

Inductive regex : Type :=
| Empty                              (* the empty pattern *)
| Lit (c : char)                     (* a pattern character *)
| Cls (p : char -> bool)             (* a class, an escape or [.] *)
| Seq (a b : regex)                  (* ab *)
| Alt (a b : regex)                  (* a|b *)
| Star (greedy : bool) (a : regex)   (* a* and a*? *)
| Grp (n : nat) (a : regex)          (* the n-th capture group *)
| Look (a : regex)                   (* (?=a) *)
| Bol                                (* ^, no m flag *)
| Eol.                               (* $, no m flag *)

Declare Scope regex_scope.
Delimit Scope regex_scope with re.
Bind Scope regex_scope with regex.
Notation "a ;; b" := (Seq a b) (at level 60, right associativity) : regex_scope.

(** a+ *)
Definition Plus (a : regex) : regex := Seq a (Star true a).
(** a? *)
Definition Opt (a : regex) : regex := Alt a Empty.
(** A sequence of pattern characters. *)
Fixpoint lits (s : str) : regex :=
  match s with
  | [] => Empty
  | c :: s' => Seq (Lit c) (lits s')
  end.

(** The state of a match: the index reached, the text not yet consumed and
    the captures recorded so far (latest first). *)
Record mstate : Type := MState {
  pos : nat;
  rest : str;
  caps : list (nat * str)
}.

Fixpoint getcap (n : nat) (cs : list (nat * str)) : option str :=
  match cs with
  | [] => None
  | (k, w) :: cs' => if Nat.eqb k n then Some w else getcap n cs'
  end.

(** [m[n]] of a match result. *)
Definition group (m : mstate) (n : nat) : option str := getcap n (caps m).

Definition step1 (ok : bool) (st : mstate) : list mstate :=
  match rest st with
  | [] => []
  | _ :: s' => if ok then [MState (S (pos st)) s' (caps st)] else []
  end.

Definition headIs (p : char -> bool) (s : str) : bool :=
  match s with
  | [] => false
  | c :: _ => p c
  end.

Definition litMatches (ic : bool) (c x : char) : bool :=
  if ic then char_eqb (canon x) (canon c) else char_eqb x c.

(** The iterations of a star over [step], the matcher of its body: an
    iteration that consumes nothing is rejected, as in ECMAScript's
    RepeatMatcher.  [fuel] exceeds the length of the remaining text, so it
    never runs out (lemma [starLoop_fuel]). *)
Fixpoint starLoop (step : mstate -> list mstate) (greedy : bool)
         (fuel : nat) (st : mstate) {struct fuel} : list mstate :=
  match fuel with
  | O => []
  | S fuel' =>
      let more :=
        flat_map (fun st' =>
                    if Nat.ltb (length (rest st')) (length (rest st))
                    then starLoop step greedy fuel' st' else [])
                 (step st) in
      if greedy then more ++ [st] else st :: more
  end.

(** [run ic r st]: every end state of matching [r] from [st], in
    backtracking order; [ic] is the [i] flag.  No source pattern repeats a
    capture group, so captures are never reset. *)
Fixpoint run (ic : bool) (r : regex) (st : mstate) {struct r} : list mstate :=
  match r with
  | Empty => [st]
  | Lit c => step1 (headIs (litMatches ic c) (rest st)) st
  | Cls p => step1 (headIs p (rest st)) st
  | Seq a b => flat_map (run ic b) (run ic a st)
  | Alt a b => run ic a st ++ run ic b st
  | Star greedy a => starLoop (run ic a) greedy (S (length (rest st))) st
  | Grp n a =>
      List.map (fun st' =>
                  MState (pos st') (rest st')
                         ((n, firstn (pos st' - pos st) (rest st)) :: caps st'))
               (run ic a st)
  | Look a =>
      match run ic a st with
      | [] => []
      | st' :: _ => [MState (pos st) (rest st) (caps st')]
      end
  | Bol => if Nat.eqb (pos st) 0 then [st] else []
  | Eol => match rest st with [] => [st] | _ :: _ => [] end
  end.

(** [RegExp.prototype.exec] and [String.prototype.match] without the [g]
    flag: the first index, from 0 up to the length, at which the pattern
    matches; [None] is [null]. *)
Fixpoint exec_from (ic : bool) (r : regex) (i : nat) (s : str) : option mstate :=
  match run ic r (MState i s []) with
  | m :: _ => Some m
  | [] => match s with
          | [] => None
          | _ :: s' => exec_from ic r (S i) s'
          end
  end.

Definition exec (ic : bool) (r : regex) (s : str) : option mstate :=
  exec_from ic r 0 s.

(** [String.prototype.split(separator)] for a separator pattern without
    capture groups that never matches the empty string (both separators of
    the source): [piece] is the current piece reversed, [skip] the number of
    code units of the last separator still to be passed. *)
Fixpoint split_go (ic : bool) (sep : regex) (i skip : nat) (piece s : str)
  : list str :=
  match s with
  | [] => [rev piece]
  | c :: s' =>
      match skip with
      | S k => split_go ic sep (S i) k piece s'
      | O =>
          match run ic sep (MState i s []) with
          | m :: _ =>
              if Nat.ltb i (pos m)
              then rev piece :: split_go ic sep (S i) (pos m - i - 1) [] s'
              else split_go ic sep (S i) 0 (c :: piece) s'
          | [] => split_go ic sep (S i) 0 (c :: piece) s'
          end
      end
  end.

Definition split (ic : bool) (sep : regex) (s : str) : list str :=
  split_go ic sep 0 0 [] s.

(** [Array.prototype.sort(compare)] where [leb a b] says [compare(a, b) <= 0]:
    the stable sort that ECMAScript prescribes, as an insertion sort. *)
Section Sort.
Context {A : Type} (leb : A -> A -> bool).

Fixpoint insert (x : A) (l : list A) : list A :=
  match l with
  | [] => [x]
  | y :: l' => if leb x y then x :: y :: l' else y :: insert x l'
  end.

Fixpoint sort (l : list A) : list A :=
  match l with
  | [] => []
  | x :: l' => insert x (sort l')
  end.
End Sort.

(* ================================================================== *)
(** ** The data model of parser.ts *)

Record HitObject : Type := mkHitObject {
  x : Z;
  y : Z;
  time : Z;
  type : Z;
  hitSound : Z;
  objectParams : option str;
  hitSample : option str;
  column : option Z;
  isLongNote : option bool;
  endTime : option Z
}.

Record TimingPoint : Type := mkTimingPoint {
  tp_time : Q;
  beatLength : Q;
  meter : Z;
  sampleSet : Z;
  sampleIndex : Z;
  volume : Z;
  uninherited : bool;
  effects : Z
}.

Record MapMetadata : Type := mkMapMetadata {
  title : option str;
  artist : option str;
  creator : option str;
  version : option str;
  audioFilename : option str;
  mode : option (number Z);
  circleSize : option (number Q)
}.

Record ParsedMap : Type := mkParsedMap {
  hitObjects : list HitObject;
  timingPoints : list TimingPoint;
  metadata : MapMetadata;
  noteCount : nat;
  longNoteCount : nat;
  duration : Z;
  keyCount : Q
}.

(** [HitObjectType] *)
Definition NOTE : Z := 1.
Definition HOLD : Z := 128.

(* ================================================================== *)
(** ** The patterns of parser.ts *)

Definition ch (a : ascii) : char := N_of_ascii a.

Definition digits : regex := Plus (Cls isDigit).
Definition comma : regex := Lit (ch ",").
Definition colon : regex := Lit (ch ":").

(** [/\[Name\]([\s\S]*?)(?=\[|$)/i], [header] being the text [[Name]]. *)
Definition sectionRegex (header : string) : regex :=
  (lits (lit header) ;; Grp 1 (Star false (Cls isAny))
   ;; Look (Alt (Lit (ch "[")) Eol))%re.

(** [/Key:\s*(.+)/i], [key] being the text [Key:]. *)
Definition fieldRegex (key : string) : regex :=
  (lits (lit key) ;; Star true (Cls isWhiteSpace) ;; Grp 1 (Plus (Cls isDot)))%re.

(** [/Mode:\s*(\d+)/i] *)
Definition modeRegex : regex :=
  (lits (lit "Mode:") ;; Star true (Cls isWhiteSpace) ;; Grp 1 digits)%re.

(** [/CircleSize:\s*([\d.]+)/i] *)
Definition circleSizeRegex : regex :=
  (lits (lit "CircleSize:") ;; Star true (Cls isWhiteSpace)
   ;; Grp 1 (Plus (Cls isDigitOrDot)))%re.

(** [/\r?\n/] *)
Definition newlineRegex : regex := (Opt (Lit 13%N) ;; Lit 10%N)%re.

(** [-?\d+(?:\.\d+)?] *)
Definition decimal : regex :=
  (Opt (Lit (ch "-")) ;; digits ;; Opt (Lit (ch ".") ;; digits))%re.

(** [/^(-?\d+(?:\.\d+)?),(-?\d+(?:\.\d+)?),(\d+),(\d+),(\d+),(\d+),([01]),(\d+)$/] *)
Definition timingRegex : regex :=
  (Bol ;; Grp 1 decimal ;; comma ;; Grp 2 decimal ;; comma
   ;; Grp 3 digits ;; comma ;; Grp 4 digits ;; comma
   ;; Grp 5 digits ;; comma ;; Grp 6 digits ;; comma
   ;; Grp 7 (Cls isBit) ;; comma ;; Grp 8 digits ;; Eol)%re.

(** [/^(\d+),(\d+),(\d+),(\d+),(\d+)(?:,([^,]+))?(?:,(.+))?$/] *)
Definition hitObjectRegex : regex :=
  (Bol ;; Grp 1 digits ;; comma ;; Grp 2 digits ;; comma
   ;; Grp 3 digits ;; comma ;; Grp 4 digits ;; comma ;; Grp 5 digits
   ;; Opt (comma ;; Grp 6 (Plus (Cls notComma)))
   ;; Opt (comma ;; Grp 7 (Plus (Cls isDot))) ;; Eol)%re.

(** [/(\d+):(\d+):(\d+):(\d+):(.+)/] *)
Definition endTimeRegex : regex :=
  (Grp 1 digits ;; colon ;; Grp 2 digits ;; colon
   ;; Grp 3 digits ;; colon ;; Grp 4 digits ;; colon
   ;; Grp 5 (Plus (Cls isDot)))%re.

(* ================================================================== *)
(** ** parseMetadata *)

(** [s.match(r)] and [s.trim()] on a value that may be [undefined]: a
    method call on [undefined] throws a TypeError. *)
Definition str_match (ic : bool) (r : regex) (s : option str)
  : outcome (option mstate) :=
  match s with
  | None => Throw TypeError
  | Some s => Return (exec ic r s)
  end.

Definition str_trim (s : option str) : outcome str :=
  match s with
  | None => Throw TypeError
  | Some s => Return (trim s)
  end.

Definition emptyMetadata : MapMetadata :=
  mkMapMetadata None None None None None None None.

Definition set_title (v : str) (m : MapMetadata) : MapMetadata :=
  mkMapMetadata (Some v) (artist m) (creator m) (version m)
                (audioFilename m) (mode m) (circleSize m).
Definition set_artist (v : str) (m : MapMetadata) : MapMetadata :=
  mkMapMetadata (title m) (Some v) (creator m) (version m)
                (audioFilename m) (mode m) (circleSize m).
Definition set_creator (v : str) (m : MapMetadata) : MapMetadata :=
  mkMapMetadata (title m) (artist m) (Some v) (version m)
                (audioFilename m) (mode m) (circleSize m).
Definition set_version (v : str) (m : MapMetadata) : MapMetadata :=
  mkMapMetadata (title m) (artist m) (creator m) (Some v)
                (audioFilename m) (mode m) (circleSize m).
Definition set_audioFilename (v : str) (m : MapMetadata) : MapMetadata :=
  mkMapMetadata (title m) (artist m) (creator m) (version m)
                (Some v) (mode m) (circleSize m).
Definition set_mode (v : number Z) (m : MapMetadata) : MapMetadata :=
  mkMapMetadata (title m) (artist m) (creator m) (version m)
                (audioFilename m) (Some v) (circleSize m).
Definition set_circleSize (v : number Q) (m : MapMetadata) : MapMetadata :=
  mkMapMetadata (title m) (artist m) (creator m) (version m)
                (audioFilename m) (mode m) (Some v).

(** [if (m) metadata.field = m[1].trim();] *)
Definition assignTrimmed (set : str -> MapMetadata -> MapMetadata)
           (m : option mstate) (metadata : MapMetadata) : outcome MapMetadata :=
  match m with
  | None => Return metadata
  | Some m => bind (str_trim (group m 1)) (fun v => Return (set v metadata))
  end.

Definition parseGeneral (osuContent : str) (metadata : MapMetadata)
  : outcome MapMetadata :=
  match exec true (sectionRegex "[General]") osuContent with
  | None => Return metadata
  | Some generalMatch =>
      bind (str_match true (fieldRegex "AudioFilename:") (group generalMatch 1))
        (fun audioMatch =>
      bind (str_match true modeRegex (group generalMatch 1))
        (fun modeMatch =>
      bind (assignTrimmed set_audioFilename audioMatch metadata)
        (fun metadata =>
      match modeMatch with
      | None => Return metadata
      | Some modeMatch =>
          Return (set_mode (parseInt (group modeMatch 1)) metadata)
      end)))
  end.

Definition parseMetadataSection (osuContent : str) (metadata : MapMetadata)
  : outcome MapMetadata :=
  match exec true (sectionRegex "[Metadata]") osuContent with
  | None => Return metadata
  | Some metadataMatch =>
      bind (str_match true (fieldRegex "Title:") (group metadataMatch 1))
        (fun titleMatch =>
      bind (str_match true (fieldRegex "Artist:") (group metadataMatch 1))
        (fun artistMatch =>
      bind (str_match true (fieldRegex "Creator:") (group metadataMatch 1))
        (fun creatorMatch =>
      bind (str_match true (fieldRegex "Version:") (group metadataMatch 1))
        (fun versionMatch =>
      bind (assignTrimmed set_title titleMatch metadata) (fun metadata =>
      bind (assignTrimmed set_artist artistMatch metadata) (fun metadata =>
      bind (assignTrimmed set_creator creatorMatch metadata) (fun metadata =>
      assignTrimmed set_version versionMatch metadata)))))))
  end.

Definition parseDifficulty (osuContent : str) (metadata : MapMetadata)
  : outcome MapMetadata :=
  match exec true (sectionRegex "[Difficulty]") osuContent with
  | None => Return metadata
  | Some difficultyMatch =>
      bind (str_match true circleSizeRegex (group difficultyMatch 1))
        (fun csMatch =>
      match csMatch with
      | None => Return metadata
      | Some csMatch =>
          Return (set_circleSize (parseFloat (group csMatch 1)) metadata)
      end)
  end.

Definition parseMetadata (osuContent : str) : outcome MapMetadata :=
  bind (parseGeneral osuContent emptyMetadata) (fun metadata =>
  bind (parseMetadataSection osuContent metadata) (fun metadata =>
  parseDifficulty osuContent metadata)).

(* ================================================================== *)
(** ** parseTimingPoints *)

(** [line.length > 0 && !line.startsWith("//") && !line.startsWith("[")] *)
Definition keepLine (line : str) : bool :=
  (Nat.ltb 0 (length line) && negb (startsWith line (lit "//"))
   && negb (startsWith line (lit "[")))%bool.

(** [section.split(/\r?\n/).map(line => line.trim()).filter(...)] *)
Definition sectionLines (section : str) : list str :=
  filter keepLine (List.map trim (split false newlineRegex section)).

(** [s.split(/\[Name\]/i)[1]] *)
Definition afterHeader (header : string) (osuContent : str) : option str :=
  nth_error (split true (lits (lit header)) osuContent) 1.

Definition str_eqb (a b : str) : bool :=
  if list_eq_dec N.eq_dec a b then true else false.

(** [v === "1"] *)
Definition isOne (v : option str) : bool :=
  match v with
  | None => false
  | Some s => str_eqb s (lit "1")
  end.

(** The body of the loop over the lines: [None] is [continue].  The eight
    numeric conversions read groups that took part in the match and hold
    digits (lemma [timing_groups_numeric]), so no field is ever [NaN]; the
    last branch is there for totality only. *)
Definition parseTimingLine (line : str) : option TimingPoint :=
  match exec false timingRegex line with
  | None => None
  | Some m =>
      match parseFloat (group m 1), parseFloat (group m 2),
            parseInt (group m 3), parseInt (group m 4),
            parseInt (group m 5), parseInt (group m 6),
            parseInt (group m 8) with
      | Num time, Num beatLength, Num meter, Num sampleSet,
        Num sampleIndex, Num volume, Num effects =>
          Some (mkTimingPoint time beatLength meter sampleSet sampleIndex
                              volume (isOne (group m 7)) effects)
      | _, _, _, _, _, _, _ => None
      end
  end.

(** [for (const line of lines) { ...; out.push(rec) }] *)
Definition collect {A} (parseLine : str -> option A) (lines : list str) : list A :=
  fold_left (fun out line =>
               match parseLine line with
               | None => out
               | Some rec => out ++ [rec]
               end) lines [].

(** [(a, b) => a.time - b.time] is at most zero *)
Definition timingLe (a b : TimingPoint) : bool :=
  Qle_bool (tp_time a - tp_time b) 0.

Definition parseTimingPoints (osuContent : str) : list TimingPoint :=
  match afterHeader "[TimingPoints]" osuContent with
  | None | Some [] => []                  (* if (!timingSection) return [] *)
  | Some timingSection =>
      sort timingLe (collect parseTimingLine (sectionLines timingSection))
  end.

(* ================================================================== *)
(** ** parseHitObjects *)

(** ToInt32, the conversion applied to the operands of [&]. *)
Definition toInt32 (n : Z) : Z :=
  let m := (n mod 2 ^ 32)%Z in
  if (2 ^ 31 <=? m)%Z then (m - 2 ^ 32)%Z else m.

(** [(type & HitObjectType.HOLD) !== 0] *)
Definition holdBit (type : Z) : bool :=
  negb (Z.eqb (Z.land (toInt32 type) (toInt32 HOLD)) 0).

(** [Math.floor((x * keyCount) / 512)] *)
Definition columnOf (x : Z) (keyCount : Q) : Z :=
  Qfloor ((inject_Z x * keyCount) / 512).

(** The value assigned by
    [if (obj.isLongNote && objectParams) { if (endTimeMatch) obj.endTime = parseInt(...) }]:
    [None] when the assignment is not reached. *)
Definition decodeEndTime (isLongNote : bool) (objectParams : option str)
  : option (number Z) :=
  match isLongNote, objectParams with
  | true, Some (c :: ps) =>
      match exec false endTimeRegex (c :: ps) with
      | Some endTimeMatch => Some (parseInt (group endTimeMatch 1))
      | None => None
      end
  | _, _ => None
  end.

(** [if (!obj.endTime) obj.endTime = obj.time]: unset, [NaN] and [0] are
    falsy. *)
Definition defaultEndTime (decoded : option (number Z)) (time : Z) : Z :=
  match decoded with
  | Some (Num e) => if truthyZ e then e else time
  | Some NaN | None => time
  end.

(** The body of the loop over the lines.  Groups 1 to 5 always take part in
    a match and hold digits (lemma [hit_groups_numeric]), so the last branch
    is there for totality only. *)
Definition parseHitObjectLine (keyCount : Q) (line : str) : option HitObject :=
  match exec false hitObjectRegex line with
  | None => None
  | Some m =>
      let objectParams := group m 6 in
      let hitSample := group m 7 in
      match parseInt (group m 1), parseInt (group m 2), parseInt (group m 3),
            parseInt (group m 4), parseInt (group m 5) with
      | Num x, Num y, Num time, Num type, Num hitSound =>
          let column := columnOf x keyCount in
          let isLongNote := holdBit type in
          let endTime := defaultEndTime (decodeEndTime isLongNote objectParams) time in
          Some (mkHitObject x y time type hitSound objectParams hitSample
                            (Some column) (Some isLongNote) (Some endTime))
      | _, _, _, _, _ => None
      end
  end.

(** [(a, b) => a.time - b.time] is at most zero *)
Definition hitLe (a b : HitObject) : bool := (time a - time b <=? 0)%Z.

Definition missingHitObjects : exn :=
  Error "Section [HitObjects] introuvable dans le fichier .osu".

(** [keyCount] is a finite number: the only caller passes
    [metadata.circleSize || 4]. *)
Definition parseHitObjects (osuContent : str) (keyCount : Q)
  : outcome (list HitObject) :=
  match afterHeader "[HitObjects]" osuContent with
  | None | Some [] => Throw missingHitObjects   (* if (!hitObjectSection) throw *)
  | Some hitObjectSection =>
      Return (sort hitLe (collect (parseHitObjectLine keyCount)
                                  (sectionLines hitObjectSection)))
  end.

(* ================================================================== *)
(** ** parseOsuFile *)

(** [metadata.circleSize || 4] *)
Definition orDefault (v : option (number Q)) (d : Q) : Q :=
  match v with
  | Some (Num q) => if truthyQ q then q else d
  | Some NaN | None => d
  end.

(** [obj.isLongNote] as the condition of [filter] *)
Definition truthyFlag (b : option bool) : bool :=
  match b with
  | Some true => true
  | Some false | None => false
  end.

(** [obj.endTime || obj.time] *)
Definition endOrTime (obj : HitObject) : Z :=
  match endTime obj with
  | Some e => if truthyZ e then e else time obj
  | None => time obj
  end.

(** [noteCount > 0 ? Math.max(...values) : 0]: the list of values has
    [noteCount] elements, and [Math.max] of a non-empty list of numbers is
    their maximum. *)
Definition maxOrZero (values : list Z) : Z :=
  match values with
  | [] => 0
  | v :: vs => fold_left Z.max vs v
  end.

Definition parseOsuFile (osuContent : str) : outcome ParsedMap :=
  bind (parseMetadata osuContent) (fun metadata =>
  let timingPoints := parseTimingPoints osuContent in
  bind (parseHitObjects osuContent (orDefault (circleSize metadata) 4))
    (fun hitObjects =>
  let noteCount := length hitObjects in
  let longNoteCount :=
    length (filter (fun obj => truthyFlag (isLongNote obj)) hitObjects) in
  let duration := maxOrZero (List.map endOrTime hitObjects) in
  let keyCount := orDefault (circleSize metadata) 4 in
  Return (mkParsedMap hitObjects timingPoints metadata
                      noteCount longNoteCount duration keyCount))).

(* ================================================================== *)
(** ** organizeNotesByColumn *)

(** ToLength of [Array.from({ length: keyCount }, ...)]: truncation towards
    zero, negative values give 0. *)
Definition toLength (keyCount : Q) : nat :=
  Z.to_nat (if Qle_bool 0 keyCount then Qfloor keyCount else Qceiling keyCount).

Fixpoint update {A} (i : nat) (v : A) (l : list A) : list A :=
  match l, i with
  | [], _ => []
  | _ :: l', O => v :: l'
  | a :: l', S i' => a :: update i' v l'
  end.

(** [obj.column ?? 0] *)
Definition columnOrZero (obj : HitObject) : Z :=
  match column obj with
  | Some c => c
  | None => 0
  end.

(** One turn of the loop: [columns[col].push(obj)] throws a TypeError when
    [columns[col]] is [undefined]. *)
Definition placeNote (keyCount : Q) (columns : list (list HitObject))
           (obj : HitObject) : outcome (list (list HitObject)) :=
  let col := columnOrZero obj in
  if ((0 <=? col)%Z && negb (Qle_bool keyCount (inject_Z col)))%bool
  then match nth_error columns (Z.to_nat col) with
       | Some bucket => Return (update (Z.to_nat col) (bucket ++ [obj]) columns)
       | None => Throw TypeError
       end
  else Return columns.

Definition organizeNotesByColumn (hitObjects : list HitObject) (keyCount : Q)
  : outcome (list (list HitObject)) :=
  fold_left (fun columns obj => bind columns (fun columns => placeNote keyCount columns obj))
            hitObjects
            (Return (repeat [] (toLength keyCount))).

(* ================================================================== *)
(** ** Vocabulary of the statements *)

(** [matches ic r w]: the pattern [r] can consume exactly the text [w]. *)
Inductive matches (ic : bool) : regex -> str -> Prop :=
| M_Empty : matches ic Empty []
| M_Lit c x : litMatches ic c x = true -> matches ic (Lit c) [x]
| M_Cls (p : char -> bool) x : p x = true -> matches ic (Cls p) [x]
| M_Seq a b u v :
    matches ic a u -> matches ic b v -> matches ic (Seq a b) (u ++ v)
| M_AltL a b u : matches ic a u -> matches ic (Alt a b) u
| M_AltR a b u : matches ic b u -> matches ic (Alt a b) u
| M_StarNil g a : matches ic (Star g a) []
| M_StarCons g a u v :
    matches ic a u -> matches ic (Star g a) v -> matches ic (Star g a) (u ++ v)
| M_Grp n a u : matches ic a u -> matches ic (Grp n a) u
| M_Look a : matches ic (Look a) []
| M_Bol : matches ic Bol []
| M_Eol : matches ic Eol [].

(** The capture groups of a pattern, with their bodies. *)
Fixpoint groups (r : regex) : list (nat * regex) :=
  match r with
  | Empty | Lit _ | Cls _ | Bol | Eol => []
  | Seq a b | Alt a b => groups a ++ groups b
  | Star _ a | Look a => groups a
  | Grp n a => (n, a) :: groups a
  end.

(** Group [n] takes part in every match of the pattern. *)
Fixpoint defines (n : nat) (r : regex) : bool :=
  match r with
  | Empty | Lit _ | Cls _ | Bol | Eol | Star _ _ => false
  | Seq a b => (defines n a || defines n b)%bool
  | Alt a b => (defines n a && defines n b)%bool
  | Look a => defines n a
  | Grp k a => (Nat.eqb k n || defines n a)%bool
  end.

(** The text [h'] is the header [h] up to the case of its letters. *)
Definition sameHeader (h : string) (h' : str) : Prop :=
  List.map canon h' = List.map canon (lit h).

(** The text contains the header [h], compared without case. *)
Definition occursCI (h : string) (text : str) : Prop :=
  exists pre h' post, text = pre ++ h' ++ post /\ sameHeader h h'.

(** The release time that the sub-record pattern
    [endTime:extra1:extra2:extra3:rest] decodes from a 6th field. *)
Definition releaseTime (objectParams : option str) : option Z :=
  match objectParams with
  | None => None
  | Some field =>
      match exec false endTimeRegex field with
      | None => None
      | Some m =>
          match parseInt (group m 1) with
          | Num e => Some e
          | NaN => None
          end
      end
  end.

(** The invariant of the specification on one hit object: the end time is
    not before the onset when a release time is decodable, and is the onset
    otherwise. *)
Definition releaseOrdered (obj : HitObject) : Prop :=
  (forall e, releaseTime (objectParams obj) = Some e ->
             exists t, endTime obj = Some t /\ (time obj <= t)%Z)
  /\ (releaseTime (objectParams obj) = None -> endTime obj = Some (time obj)).

(** A small chart used to exercise the statements. *)
Definition sampleChart : str := lit "osu file format v14

[General]
AudioFilename: audio.mp3
Mode: 3

[Metadata]
Title:  Sample Song  
Artist: Someone

[Difficulty]
CircleSize:4

[TimingPoints]
1000,500,4,1,0,100,1,0
20.5,-100,4,2,1,60,0,1

[HitObjects]
511,192,2000,1,0,0:0:0:0:
192,192,1000,128,0,5000:0:0:0:L1:1
0,192,1500,128,0,0:0:0:0:0
512,192,3000,1,0
".


(** The chart above, parsed. *)
Definition sampleMap : ParsedMap :=
  Eval vm_compute in
    match parseOsuFile sampleChart with
    | Return pm => pm
    | Throw _ => mkParsedMap [] [] emptyMetadata 0 0 0 0
    end.

(** [h] starts the text [s], compared without case. *)
Fixpoint ciPrefix (h s : str) : bool :=
  match h, s with
  | [], _ => true
  | _ :: _, [] => false
  | c :: h', a :: s' => (char_eqb (canon a) (canon c) && ciPrefix h' s')%bool
  end.

(** The text before and the text after the first place where [h] occurs
    in [s], compared without case. *)
Fixpoint cut (h s : str) : option (str * str) :=
  if ciPrefix h s then Some ([], skipn (length h) s)
  else match s with
       | [] => None
       | a :: s' =>
           match cut h s' with
           | Some (pre, post) => Some (a :: pre, post)
           | None => None
           end
       end.

(** [[^\[]] *)
Definition notBracket (c : char) : bool := negb (N.eqb c 91).

(** The text of a section: what follows the first header, up to the next
    [[] or the end of the text. *)
Definition sectionBody (header : string) (text : str) : option str :=
  match cut (lit header) text with
  | Some (_, post) => Some (takeWhile notBracket post)
  | None => None
  end.

(** [(?=\[|$)] *)
Definition lookBracket : regex := Look (Alt (Lit (ch "[")) Eol).

(** The capture added by group 1 opened at index [p1] on the text [r1]. *)
Definition closeGroup (p1 : nat) (r1 : str) (st' : mstate) : mstate :=
  MState (pos st') (rest st')
         ((1%nat, firstn (pos st' - p1)%nat r1) :: caps st').


(** The first capture of a pattern searched in a section body. *)
Definition captureOf (r : regex) (body : str) : option str :=
  match exec true r body with
  | Some m => group m 1
  | None => None
  end.

(** A field of a section that may be absent. *)
Definition inSection {A} (header : string) (text : str)
           (field : str -> option A) : option A :=
  match sectionBody header text with
  | Some body => field body
  | None => None
  end.


(** The text captured by [/Key:\s*(.+)/i] in a section body. *)
Definition fieldValue (key : string) (body : str) : option str :=
  captureOf (fieldRegex key) body.

(** A text field of a section: the value after its key, trimmed. *)
Definition trimmedField (header key : string) (text : str) : option str :=
  inSection header text (fun body => option_map trim (fieldValue key body)).

(** The metadata as the specification describes it: each field is looked up
    on its own, in the body of its section. *)
Definition metadataOf (text : str) : MapMetadata :=
  mkMapMetadata
    (trimmedField "[Metadata]" "Title:" text)
    (trimmedField "[Metadata]" "Artist:" text)
    (trimmedField "[Metadata]" "Creator:" text)
    (trimmedField "[Metadata]" "Version:" text)
    (trimmedField "[General]" "AudioFilename:" text)
    (inSection "[General]" text
       (fun body => option_map (fun w => parseInt (Some w))
                               (captureOf modeRegex body)))
    (inSection "[Difficulty]" text
       (fun body => option_map (fun w => parseFloat (Some w))
                               (captureOf circleSizeRegex body))).

(** What an end state tells about the start state: the consumed text. *)
Definition consumed (ic : bool) (r : regex) (st st' : mstate) : Prop :=
  exists w, rest st = w ++ rest st' /\ pos st' = (pos st + length w)%nat
            /\ matches ic r w.

(** Every capture of an end state was there at the start or is a word
    of the body of its group. *)
Definition captured (ic : bool) (r : regex) (st st' : mstate) : Prop :=
  forall n w, getcap n (caps st') = Some w ->
              getcap n (caps st) = Some w
              \/ exists body, In (n, body) (groups r) /\ matches ic body w.

(** A group that takes part in every match is defined at the end, and a
    capture once made is never lost. *)
Definition keeps (n : nat) (r : regex) (st st' : mstate) : Prop :=
  defines n r = true \/ getcap n (caps st) <> None ->
  getcap n (caps st') <> None.

(** The end state a backtracking engine reaches first. *)
Definition first (ic : bool) (r : regex) (st : mstate) : option mstate :=
  hd_error (run ic r st).

(** A 6th field of the shape [endTime:extra1:extra2:extra3:rest], the
    first four components being runs of digits and [rest] starting on the
    same line. *)
Definition subRecord (ds e1 e2 e3 tail : str) : str :=
  ds ++ 58%N :: e1 ++ 58%N :: e2 ++ 58%N :: e3 ++ 58%N :: tail.

Definition digitRun (w : str) : Prop := w <> [] /\ forallb isDigit w = true.

(** A note in column [c], for the examples of the column organizer. *)
Definition inColumn (c : Z) : HitObject :=
  mkHitObject 0 0 0 1 0 None None (Some c) (Some false) (Some 0%Z).

(** A chart in which two hit objects share their [time]. *)
Definition tiedChart : str := lit "[HitObjects]
448,0,1000,1,0
64,0,2000,1,0
0,0,1000,1,0
".

Definition tiedObjects : list HitObject :=
  Eval vm_compute in
    match parseHitObjects tiedChart 4 with
    | Return objs => objs
    | Throw _ => []
    end.



(** The text up to the next occurrence of the header [h], or all of it. *)
Definition between (h post : str) : str :=
  match cut h post with
  | Some (mid, _) => mid
  | None => post
  end.

(** The range test of [organizeNotesByColumn]:
    [col >= 0 && col < keyCount]. *)
Definition inRange (keyCount : Q) (obj : HitObject) : bool :=
  ((0 <=? columnOrZero obj)%Z
   && negb (Qle_bool keyCount (inject_Z (columnOrZero obj))))%bool.








(* ================================================================== *)
(** ** The matcher *)

Local Open Scope nat_scope.

Section Matcher.
Variable ic : bool.

Lemma step1_inv ok st st' :
  In st' (step1 ok st) ->
  ok = true /\ exists c, rest st = c :: rest st'
                         /\ pos st' = S (pos st) /\ caps st' = caps st.
Proof.
  unfold step1. destruct (rest st) as [|c s] eqn:E; [intros []|].
  destruct ok; [|intros []].
  intros [<-|[]]. split; [reflexivity|]. exists c. simpl. auto.
Qed.

Lemma starLoop_consumed g a fuel :
  (forall st st', In st' (run ic a st) -> consumed ic a st st') ->
  forall st st', In st' (starLoop (run ic a) g fuel st) ->
                 consumed ic (Star g a) st st'.
Proof.
  intros Ha. induction fuel as [|fuel IH]; intros st st' Hin; [destruct Hin|].
  simpl in Hin.
  assert (Hmore : forall l, In st' (flat_map (fun s1 =>
              if Nat.ltb (length (rest s1)) (length (rest st))
              then starLoop (run ic a) g fuel s1 else []) l) ->
            (forall s1, In s1 l -> In s1 (run ic a st)) ->
            consumed ic (Star g a) st st').
  { intros l Hl Hsub. apply in_flat_map in Hl as (s1 & Hs1 & Hst').
    destruct (Nat.ltb _ _); [|destruct Hst'].
    apply Hsub, Ha in Hs1 as (u & Hu & Hp & Hm).
    apply IH in Hst' as (v & Hv & Hq & Hn).
    exists (u ++ v). rewrite Hu, Hv, Hq, Hp, length_app, <- app_assoc.
    repeat split; [simpl; lia|]. now constructor. }
  assert (Hnil : consumed ic (Star g a) st st).
  { exists []. repeat split; [simpl; lia|constructor]. }
  destruct g.
  - apply in_app_or in Hin as [Hin|[<-|[]]]; [|exact Hnil].
    now apply (Hmore _ Hin).
  - destruct Hin as [<-|Hin]; [exact Hnil|]. now apply (Hmore _ Hin).
Qed.

Lemma run_consumed r : forall st st', In st' (run ic r st) -> consumed ic r st st'.
Proof.
  induction r as [|c|p|a IHa b IHb|a IHa b IHb|g a IHa|n a IHa|a IHa| |];
    intros st st' Hin; simpl in Hin.
  - destruct Hin as [<-|[]]. exists []. repeat split; [simpl; lia|constructor].
  - apply step1_inv in Hin as (Hok & x & Hr & Hp & _).
    rewrite Hr in Hok. exists [x]. rewrite Hr, Hp. simpl.
    repeat split; [simpl; lia|now constructor].
  - apply step1_inv in Hin as (Hok & x & Hr & Hp & _).
    rewrite Hr in Hok. exists [x]. rewrite Hr, Hp. simpl.
    repeat split; [simpl; lia|now constructor].
  - apply in_flat_map in Hin as (s1 & H1 & H2).
    apply IHa in H1 as (u & Hu & Hp & Hm).
    apply IHb in H2 as (v & Hv & Hq & Hn).
    exists (u ++ v). rewrite Hu, Hv, Hq, Hp, length_app, <- app_assoc.
    repeat split; [simpl; lia|now constructor].
  - apply in_app_or in Hin as [Hin|Hin].
    + apply IHa in Hin as (u & Hu & Hp & Hm). exists u. repeat split; auto using M_AltL.
    + apply IHb in Hin as (u & Hu & Hp & Hm). exists u. repeat split; auto using M_AltR.
  - apply (starLoop_consumed g a (S (length (rest st))) IHa). exact Hin.
  - apply in_map_iff in Hin as (s1 & <- & H1).
    apply IHa in H1 as (u & Hu & Hp & Hm). exists u. simpl.
    repeat split; auto using M_Grp.
  - destruct (run ic a st) as [|s1 l]; [destruct Hin|].
    destruct Hin as [<-|[]]. exists []. simpl.
    repeat split; [simpl; lia|constructor].
  - destruct (Nat.eqb (pos st) 0); [|destruct Hin].
    destruct Hin as [<-|[]]. exists []. repeat split; [simpl; lia|constructor].
  - destruct (rest st) eqn:E; [|destruct Hin].
    destruct Hin as [<-|[]]. exists []. rewrite E.
    repeat split; [simpl; lia|constructor].
Qed.

Lemma captured_refl r st : captured ic r st st.
Proof. intros n w H. now left. Qed.

Lemma captured_trans a b r st s1 st' :
  captured ic a st s1 -> captured ic b s1 st' ->
  (forall x, In x (groups a) -> In x (groups r)) ->
  (forall x, In x (groups b) -> In x (groups r)) ->
  captured ic r st st'.
Proof.
  intros H1 H2 Ia Ib n w Hw.
  destruct (H2 n w Hw) as [Hs|(body & Hi & Hm)].
  - destruct (H1 n w Hs) as [Hs'|(body & Hi & Hm)]; [now left|].
    right. exists body. auto.
  - right. exists body. auto.
Qed.

Lemma starLoop_captured g a fuel :
  (forall st st', In st' (run ic a st) -> captured ic a st st') ->
  forall st st', In st' (starLoop (run ic a) g fuel st) ->
                 captured ic (Star g a) st st'.
Proof.
  intros Ha. induction fuel as [|fuel IH]; intros st st' Hin; [destruct Hin|].
  simpl in Hin.
  assert (Hmore : In st' (flat_map (fun s1 =>
              if Nat.ltb (length (rest s1)) (length (rest st))
              then starLoop (run ic a) g fuel s1 else []) (run ic a st)) ->
            captured ic (Star g a) st st').
  { intros Hl. apply in_flat_map in Hl as (s1 & Hs1 & Hst').
    destruct (Nat.ltb _ _); [|destruct Hst'].
    eapply captured_trans; [apply Ha, Hs1|apply IH, Hst'| |]; auto. }
  destruct g.
  - apply in_app_or in Hin as [Hin|[<-|[]]]; auto using captured_refl.
  - destruct Hin as [<-|Hin]; auto using captured_refl.
Qed.

Lemma firstn_consumed (u v : str) n m :
  m = n + length u -> firstn (m - n) (u ++ v) = u.
Proof.
  intros ->. replace (n + length u - n) with (length u + 0) by lia.
  rewrite firstn_app_2. simpl. apply app_nil_r.
Qed.

Lemma run_captured r : forall st st', In st' (run ic r st) -> captured ic r st st'.
Proof.
  induction r as [|c|p|a IHa b IHb|a IHa b IHb|g a IHa|k a IHa|a IHa| |];
    intros st st' Hin; simpl in Hin.
  - destruct Hin as [<-|[]]. apply captured_refl.
  - apply step1_inv in Hin as (_ & _ & _ & _ & Hc).
    intros n w. rewrite Hc. now left.
  - apply step1_inv in Hin as (_ & _ & _ & _ & Hc).
    intros n w. rewrite Hc. now left.
  - apply in_flat_map in Hin as (s1 & H1 & H2).
    eapply captured_trans; [apply IHa, H1|apply IHb, H2| |];
      simpl; intros; apply in_or_app; auto.
  - apply in_app_or in Hin as [Hin|Hin].
    + eapply captured_trans; [apply IHa, Hin|apply (captured_refl Empty)| |];
        simpl; intros; try apply in_or_app; auto. contradiction.
    + eapply captured_trans; [apply IHb, Hin|apply (captured_refl Empty)| |];
        simpl; intros; try apply in_or_app; auto. contradiction.
  - apply (starLoop_captured g a (S (length (rest st))) IHa). exact Hin.
  - apply in_map_iff in Hin as (s1 & <- & H1).
    intros n w. simpl. destruct (Nat.eqb k n) eqn:E.
    + apply Nat.eqb_eq in E as ->. intros [= <-]. right. exists a.
      split; [now left|].
      apply run_consumed in H1 as (u & Hu & Hp & Hm).
      rewrite Hu. now rewrite (firstn_consumed u _ (pos st) (pos s1) Hp).
    + intros Hw. destruct (IHa _ _ H1 n w Hw) as [?|(body & Hi & Hm)];
        [now left|]. right. exists body. split; [now right|exact Hm].
  - destruct (run ic a st) as [|s1 l] eqn:E; [destruct Hin|].
    destruct Hin as [<-|[]]. intros n w Hw.
    apply (IHa st s1); [rewrite E; now left|exact Hw].
  - destruct (Nat.eqb (pos st) 0); [|destruct Hin].
    destruct Hin as [<-|[]]. apply captured_refl.
  - destruct (rest st) eqn:E; [|destruct Hin].
    destruct Hin as [<-|[]]. apply captured_refl.
Qed.

Lemma starLoop_keeps n g a fuel :
  (forall st st', In st' (run ic a st) -> keeps n a st st') ->
  forall st st', In st' (starLoop (run ic a) g fuel st) ->
                 getcap n (caps st) <> None -> getcap n (caps st') <> None.
Proof.
  intros Ha. induction fuel as [|fuel IH]; intros st st' Hin Hst; [destruct Hin|].
  simpl in Hin.
  assert (Hmore : In st' (flat_map (fun s1 =>
              if Nat.ltb (length (rest s1)) (length (rest st))
              then starLoop (run ic a) g fuel s1 else []) (run ic a st)) ->
            getcap n (caps st') <> None).
  { intros Hl. apply in_flat_map in Hl as (s1 & Hs1 & Hst').
    destruct (Nat.ltb _ _); [|destruct Hst'].
    apply (IH _ _ Hst'). apply (Ha _ _ Hs1). now right. }
  destruct g.
  - apply in_app_or in Hin as [Hin|[<-|[]]]; auto.
  - destruct Hin as [<-|Hin]; auto.
Qed.

Lemma run_keeps n r : forall st st', In st' (run ic r st) -> keeps n r st st'.
Proof.
  induction r as [|c|p|a IHa b IHb|a IHa b IHb|g a IHa|k a IHa|a IHa| |];
    intros st st' Hin; simpl in Hin; unfold keeps; simpl.
  - destruct Hin as [<-|[]]. intros [?|?]; [discriminate|assumption].
  - apply step1_inv in Hin as (_ & _ & _ & _ & ->).
    intros [?|?]; [discriminate|assumption].
  - apply step1_inv in Hin as (_ & _ & _ & _ & ->).
    intros [?|?]; [discriminate|assumption].
  - apply in_flat_map in Hin as (s1 & H1 & H2).
    intros [Hd|Hs].
    + apply orb_true_iff in Hd as [Hd|Hd].
      * apply (IHb _ _ H2). right. apply (IHa _ _ H1). now left.
      * apply (IHb _ _ H2). now left.
    + apply (IHb _ _ H2). right. apply (IHa _ _ H1). now right.
  - intros Hyp.
    assert (Hyp' : (defines n a = true /\ defines n b = true)
                   \/ getcap n (caps st) <> None).
    { destruct Hyp as [Hd|Hs]; [left; now apply andb_true_iff|now right]. }
    apply in_app_or in Hin as [Hin|Hin].
    + apply (IHa _ _ Hin). tauto.
    + apply (IHb _ _ Hin). tauto.
  - intros [?|Hs]; [discriminate|].
    apply (starLoop_keeps n g a (S (length (rest st))) IHa _ _ Hin Hs).
  - apply in_map_iff in Hin as (s1 & <- & H1). simpl.
    destruct (Nat.eqb k n); [discriminate|]. simpl.
    intros Hyp. apply (IHa _ _ H1). exact Hyp.
  - destruct (run ic a st) as [|s1 l] eqn:E; [destruct Hin|].
    destruct Hin as [<-|[]]. simpl. intros Hyp.
    apply (IHa st s1); [rewrite E; now left|exact Hyp].
  - destruct (Nat.eqb (pos st) 0); [|destruct Hin].
    destruct Hin as [<-|[]]. intros [?|?]; [discriminate|assumption].
  - destruct (rest st) eqn:E; [|destruct Hin].
    destruct Hin as [<-|[]]. intros [?|?]; [discriminate|assumption].
Qed.

(** The match reported by [exec] is the first end state of a run that
    starts somewhere in the text, with no capture made. *)
Lemma exec_from_run r : forall s i m,
  exec_from ic r i s = Some m ->
  exists pre s1, s = pre ++ s1
                 /\ In m (run ic r (MState (i + length pre) s1 [])).
Proof.
  induction s as [|c s IH]; intros i m; simpl.
  - destruct (run ic r (MState i [] [])) as [|m0 l] eqn:E; [discriminate|].
    intros [= <-]. exists [], []. simpl. rewrite Nat.add_0_r, E.
    split; [reflexivity|now left].
  - destruct (run ic r (MState i (c :: s) [])) as [|m0 l] eqn:E.
    + intros H. apply IH in H as (pre & s1 & -> & Hin).
      exists (c :: pre), s1. simpl.
      replace (i + S (length pre)) with (S i + length pre) by lia. auto.
    + intros [= <-]. exists [], (c :: s). simpl. rewrite Nat.add_0_r, E.
      split; [reflexivity|now left].
Qed.

Lemma exec_group_word r s m n w :
  exec ic r s = Some m -> group m n = Some w ->
  exists body, In (n, body) (groups r) /\ matches ic body w.
Proof.
  intros He Hg. apply exec_from_run in He as (pre & s1 & _ & Hin).
  destruct (run_captured _ _ _ Hin n w Hg) as [H|H]; [discriminate|exact H].
Qed.

Lemma exec_group_defined r s m n :
  exec ic r s = Some m -> defines n r = true -> group m n <> None.
Proof.
  intros He Hd. apply exec_from_run in He as (pre & s1 & _ & Hin).
  apply (run_keeps n _ _ _ Hin). now left.
Qed.
End Matcher.

(** The fuel given to a star is never used up: any amount above the length
    of the remaining text gives the same end states. *)
Lemma starLoop_fuel step g : forall f1 f2 st,
  length (rest st) < f1 -> length (rest st) < f2 ->
  starLoop step g f1 st = starLoop step g f2 st.
Proof.
  induction f1 as [|f1 IH]; intros f2 st H1 H2; [lia|].
  destruct f2 as [|f2]; [lia|]. simpl.
  assert (E : forall l,
    flat_map (fun st' => if Nat.ltb (length (rest st')) (length (rest st))
                         then starLoop step g f1 st' else []) l =
    flat_map (fun st' => if Nat.ltb (length (rest st')) (length (rest st))
                         then starLoop step g f2 st' else []) l).
  { induction l as [|s1 l IHl]; [reflexivity|]. simpl. rewrite IHl. f_equal.
    destruct (Nat.ltb_spec (length (rest s1)) (length (rest st))); [|reflexivity].
    apply IH; lia. }
  now rewrite E.
Qed.

(* ================================================================== *)
(** ** Words of the numeric patterns *)

Lemma matches_empty_inv ic w : matches ic Empty w -> w = [].
Proof. intros H. now inversion H. Qed.

Lemma matches_lit_inv ic c w :
  matches ic (Lit c) w -> exists x, w = [x] /\ litMatches ic c x = true.
Proof. intros H. inversion H; subst. eauto. Qed.

Lemma matches_cls_inv ic p w :
  matches ic (Cls p) w -> exists x, w = [x] /\ p x = true.
Proof. intros H. inversion H; subst. eauto. Qed.

Lemma matches_seq_inv ic a b w :
  matches ic (Seq a b) w ->
  exists u v, w = u ++ v /\ matches ic a u /\ matches ic b v.
Proof. intros H. inversion H; subst. eauto. Qed.

Lemma matches_alt_inv ic a b w :
  matches ic (Alt a b) w -> matches ic a w \/ matches ic b w.
Proof. intros H. inversion H; subst; auto. Qed.

Lemma matches_star_cls ic g p w :
  matches ic (Star g (Cls p)) w -> forallb p w = true.
Proof.
  remember (Star g (Cls p)) as r eqn:Er. intros H.
  induction H; try discriminate; [reflexivity|].
  injection Er as -> ->.
  apply matches_cls_inv in H as (x & -> & Hx). simpl.
  now rewrite Hx, IHmatches2.
Qed.

Lemma matches_plus_cls ic p w :
  matches ic (Plus (Cls p)) w -> w <> [] /\ forallb p w = true.
Proof.
  unfold Plus. intros H.
  apply matches_seq_inv in H as (u & v & -> & Hu & Hv).
  apply matches_cls_inv in Hu as (x & -> & Hx).
  apply matches_star_cls in Hv. simpl. rewrite Hx, Hv.
  split; [discriminate|reflexivity].
Qed.

Lemma takeWhile_all {A} (p : A -> bool) l :
  forallb p l = true -> takeWhile p l = l.
Proof.
  induction l as [|a l IH]; [reflexivity|]. simpl.
  destruct (p a); [|discriminate]. simpl. intros H. now rewrite IH.
Qed.

Lemma digitsVal_from_nonneg ds : forall acc,
  (0 <= acc)%Z ->
  (0 <= fold_left (fun acc c => 10 * acc + digitVal c) ds acc)%Z.
Proof.
  induction ds as [|c ds IH]; intros acc H; [exact H|].
  cbn [fold_left]. apply IH.
  unfold digitVal. pose proof (N2Z.is_nonneg (c - 48)). lia.
Qed.

Lemma digitsVal_nonneg ds : (0 <= digitsVal ds)%Z.
Proof. apply digitsVal_from_nonneg. lia. Qed.

Lemma parseInt_digits ic w :
  matches ic digits w ->
  parseInt (Some w) = Num (digitsVal w) /\ (0 <= digitsVal w)%Z.
Proof.
  intros H. apply matches_plus_cls in H as [Hne Hd].
  split; [|apply digitsVal_nonneg].
  unfold parseInt. rewrite (takeWhile_all _ _ Hd).
  destruct w; [contradiction|reflexivity].
Qed.

Lemma parseUnsigned_digit c s :
  isDigit c = true -> exists q, parseUnsigned (c :: s) = Num q.
Proof.
  intros H. unfold parseUnsigned. simpl. rewrite H. simpl. eauto.
Qed.

Lemma parseFloat_decimal w :
  matches false decimal w -> exists q, parseFloat (Some w) = Num q.
Proof.
  unfold decimal. intros H.
  apply matches_seq_inv in H as (sg & v & -> & Hs & Hr).
  apply matches_seq_inv in Hr as (ds & fr & -> & Hd & _).
  apply matches_plus_cls in Hd as [Hne Hd].
  destruct ds as [|d ds]; [contradiction|]. simpl in Hd.
  apply andb_true_iff in Hd as [Hd _].
  apply matches_alt_inv in Hs as [Hm|Hm].
  - apply matches_lit_inv in Hm as (c & -> & Hc).
    unfold litMatches, char_eqb in Hc. apply N.eqb_eq in Hc as ->. simpl.
    destruct (parseUnsigned_digit d (ds ++ fr) Hd) as [q Hq].
    rewrite Hq. eauto.
  - apply matches_empty_inv in Hm as ->. simpl.
    assert (Hn : N.eqb d 45 = false).
    { apply N.eqb_neq. intros ->. discriminate. }
    rewrite Hn. apply parseUnsigned_digit, Hd.
Qed.

Lemma exec_digits_group r s m n :
  exec false r s = Some m ->
  defines n r = true ->
  (forall body, In (n, body) (groups r) -> body = digits) ->
  exists v, parseInt (group m n) = Num v /\ (0 <= v)%Z.
Proof.
  intros He Hd Hb.
  destruct (group m n) as [w|] eqn:Hg;
    [|now apply (exec_group_defined _ _ _ _ n He) in Hd].
  destruct (exec_group_word _ _ _ _ _ _ He Hg) as (body & Hi & Hm).
  apply Hb in Hi as ->. exists (digitsVal w). now apply parseInt_digits in Hm.
Qed.

Lemma exec_decimal_group r s m n :
  exec false r s = Some m ->
  defines n r = true ->
  (forall body, In (n, body) (groups r) -> body = decimal) ->
  exists q, parseFloat (group m n) = Num q.
Proof.
  intros He Hd Hb.
  destruct (group m n) as [w|] eqn:Hg;
    [|now apply (exec_group_defined _ _ _ _ n He) in Hd].
  destruct (exec_group_word _ _ _ _ _ _ He Hg) as (body & Hi & Hm).
  apply Hb in Hi as ->. now apply parseFloat_decimal.
Qed.

Ltac body_of :=
  let body := fresh "body" in
  let Hi := fresh "Hi" in
  intros body Hi; simpl in Hi;
  repeat (destruct Hi as [Hi|Hi]; [now inversion Hi|]); contradiction.

(** The five numeric fields of a matched hit-object line are numbers. *)
Lemma hit_groups_numeric line m :
  exec false hitObjectRegex line = Some m ->
  exists x y time type hitSound,
    parseInt (group m 1) = Num x /\ parseInt (group m 2) = Num y
    /\ parseInt (group m 3) = Num time /\ parseInt (group m 4) = Num type
    /\ parseInt (group m 5) = Num hitSound
    /\ (0 <= x)%Z /\ (0 <= time)%Z /\ (0 <= type)%Z.
Proof.
  intros He.
  destruct (exec_digits_group _ _ _ 1 He eq_refl) as (x & Hx & Px); [body_of|].
  destruct (exec_digits_group _ _ _ 2 He eq_refl) as (y & Hy & Py); [body_of|].
  destruct (exec_digits_group _ _ _ 3 He eq_refl) as (t & Ht & Pt); [body_of|].
  destruct (exec_digits_group _ _ _ 4 He eq_refl) as (ty & Hty & Pty); [body_of|].
  destruct (exec_digits_group _ _ _ 5 He eq_refl) as (hs & Hhs & Phs); [body_of|].
  exists x, y, t, ty, hs. tauto.
Qed.

(** The numeric fields of a matched timing line are numbers. *)
Lemma timing_groups_numeric line m :
  exec false timingRegex line = Some m ->
  exists time beatLength meter sampleSet sampleIndex volume effects,
    parseFloat (group m 1) = Num time /\ parseFloat (group m 2) = Num beatLength
    /\ parseInt (group m 3) = Num meter /\ parseInt (group m 4) = Num sampleSet
    /\ parseInt (group m 5) = Num sampleIndex /\ parseInt (group m 6) = Num volume
    /\ parseInt (group m 8) = Num effects.
Proof.
  intros He.
  destruct (exec_decimal_group _ _ _ 1 He eq_refl) as (t & Ht); [body_of|].
  destruct (exec_decimal_group _ _ _ 2 He eq_refl) as (b & Hb); [body_of|].
  destruct (exec_digits_group _ _ _ 3 He eq_refl) as (me & Hme & _); [body_of|].
  destruct (exec_digits_group _ _ _ 4 He eq_refl) as (ss & Hss & _); [body_of|].
  destruct (exec_digits_group _ _ _ 5 He eq_refl) as (si & Hsi & _); [body_of|].
  destruct (exec_digits_group _ _ _ 6 He eq_refl) as (vo & Hvo & _); [body_of|].
  destruct (exec_digits_group _ _ _ 8 He eq_refl) as (ef & Hef & _); [body_of|].
  exists t, b, me, ss, si, vo, ef. tauto.
Qed.

(* ================================================================== *)
(** ** Loops and sorting *)

Lemma collect_from {A} (f : str -> option A) lines : forall out,
  fold_left (fun out line => match f line with
                             | None => out
                             | Some rec => out ++ [rec]
                             end) lines out
  = out ++ collect f lines.
Proof.
  unfold collect. induction lines as [|l lines IH]; intros out; simpl.
  - now rewrite app_nil_r.
  - rewrite IH. destruct (f l) as [a|]; [|reflexivity].
    rewrite (IH [a]). now rewrite <- app_assoc.
Qed.

Lemma collect_cons {A} (f : str -> option A) l lines :
  collect f (l :: lines)
  = match f l with
    | Some a => a :: collect f lines
    | None => collect f lines
    end.
Proof.
  unfold collect at 1. simpl. destruct (f l) as [a|].
  - now rewrite (collect_from f lines [a]).
  - reflexivity.
Qed.

Lemma in_collect {A} (f : str -> option A) lines a :
  In a (collect f lines) <-> exists l, In l lines /\ f l = Some a.
Proof.
  induction lines as [|l lines IH].
  - split; [intros []|intros (l & [] & _)].
  - rewrite collect_cons. split.
    + destruct (f l) as [b|] eqn:E.
      * intros [<-|H]; [exists l; split; [now left|exact E]|].
        apply IH in H as (l' & Hl & Hf). exists l'. split; [now right|exact Hf].
      * intros H. apply IH in H as (l' & Hl & Hf). exists l'.
        split; [now right|exact Hf].
    + intros (l' & [<-|Hl] & Hf).
      * rewrite Hf. now left.
      * assert (In a (collect f lines)) by (apply IH; eauto).
        destruct (f l); [now right|assumption].
Qed.

Section SortFacts.
Context {A : Type} (leb : A -> A -> bool).

Lemma insert_perm a l : Permutation (insert leb a l) (a :: l).
Proof.
  induction l as [|b l IH]; simpl; [reflexivity|].
  destruct (leb a b); [reflexivity|].
  rewrite IH. apply perm_swap.
Qed.

Lemma sort_perm l : Permutation (sort leb l) l.
Proof.
  induction l as [|a l IH]; simpl; [constructor|].
  rewrite insert_perm. now constructor.
Qed.

Lemma in_sort a l : In a (sort leb l) <-> In a l.
Proof.
  split; apply Permutation_in; [|symmetry]; apply sort_perm.
Qed.

Hypothesis leb_total : forall a b, leb a b = false -> leb b a = true.

Lemma insert_sorted a l :
  Sorted (fun a b => leb a b = true) l ->
  Sorted (fun a b => leb a b = true) (insert leb a l).
Proof.
  induction l as [|b l IH]; simpl; intros Hs.
  - repeat constructor.
  - destruct (leb a b) eqn:E.
    + constructor; [exact Hs|]. now constructor.
    + inversion Hs as [|? ? Hl Hh]; subst.
      constructor; [now apply IH|].
      destruct l as [|c l]; simpl.
      * constructor. now apply leb_total.
      * destruct (leb a c); constructor.
        -- now apply leb_total.
        -- now inversion Hh.
Qed.

Lemma sort_sorted l : Sorted (fun a b => leb a b = true) (sort leb l).
Proof.
  induction l as [|a l IH]; simpl; [constructor|]. now apply insert_sorted.
Qed.

Hypothesis leb_trans :
  forall a b c, leb a b = true -> leb b c = true -> leb a c = true.

Lemma sort_strongly_sorted l : StronglySorted (fun a b => leb a b = true) (sort leb l).
Proof.
  apply Sorted_StronglySorted; [|apply sort_sorted].
  intros a b c. apply leb_trans.
Qed.
End SortFacts.

Lemma StronglySorted_impl {A} (R S : A -> A -> Prop) l :
  (forall a b, R a b -> S a b) -> StronglySorted R l -> StronglySorted S l.
Proof.
  intros HRS. induction 1 as [|a l Hs IH Hf]; constructor; [exact IH|].
  eapply Forall_impl; [|exact Hf]. apply HRS.
Qed.

Lemma hit_sorted l :
  StronglySorted (fun a b => (time a <= time b)%Z) (sort hitLe l).
Proof.
  apply (StronglySorted_impl (fun a b => hitLe a b = true)).
  - unfold hitLe. intros a b H. apply Z.leb_le in H. lia.
  - apply sort_strongly_sorted; unfold hitLe.
    + intros a b H. apply Z.leb_gt in H. apply Z.leb_le. lia.
    + intros a b c H1 H2. apply Z.leb_le in H1, H2. apply Z.leb_le. lia.
Qed.

Lemma timingLe_le a b : timingLe a b = true <-> (tp_time a <= tp_time b)%Q.
Proof.
  unfold timingLe. rewrite Qle_bool_iff. split; intros H; lra.
Qed.

Lemma timing_sorted l :
  StronglySorted (fun a b => (tp_time a <= tp_time b)%Q) (sort timingLe l).
Proof.
  apply (StronglySorted_impl (fun a b => timingLe a b = true)).
  - intros a b. apply timingLe_le.
  - apply sort_strongly_sorted.
    + intros a b H. apply timingLe_le.
      assert (N : ~ (tp_time a <= tp_time b)%Q).
      { intros C. apply timingLe_le in C. congruence. }
      lra.
    + intros a b c H1 H2. apply timingLe_le in H1, H2. apply timingLe_le. lra.
Qed.

(* ================================================================== *)
(** ** What the parser derives for each hit object *)

Lemma hit_line_total keyCount line m :
  exec false hitObjectRegex line = Some m ->
  exists obj, parseHitObjectLine keyCount line = Some obj.
Proof.
  intros He. unfold parseHitObjectLine. rewrite He.
  destruct (hit_groups_numeric _ _ He)
    as (x & y & t & ty & hs & -> & -> & -> & -> & -> & _).
  eauto.
Qed.

Lemma hit_line_derived keyCount line obj :
  parseHitObjectLine keyCount line = Some obj ->
  (0 <= x obj)%Z /\ (0 <= time obj)%Z /\ (0 <= type obj)%Z
  /\ column obj = Some (columnOf (x obj) keyCount)
  /\ isLongNote obj = Some (holdBit (type obj))
  /\ endTime obj
     = Some (defaultEndTime
               (decodeEndTime (holdBit (type obj)) (objectParams obj))
               (time obj)).
Proof.
  unfold parseHitObjectLine.
  destruct (exec false hitObjectRegex line) as [m|] eqn:He; [|discriminate].
  destruct (hit_groups_numeric _ _ He)
    as (x & y & t & ty & hs & -> & -> & -> & -> & -> & Hx & Ht & Hty).
  intros [= <-]. simpl. tauto.
Qed.

Lemma timing_line_total line m :
  exec false timingRegex line = Some m ->
  exists tp, parseTimingLine line = Some tp.
Proof.
  intros He. unfold parseTimingLine. rewrite He.
  destruct (timing_groups_numeric _ _ He)
    as (t & b & me & ss & si & vo & ef & -> & -> & -> & -> & -> & -> & ->).
  eauto.
Qed.

Lemma parseHitObjects_inv text keyCount objs :
  parseHitObjects text keyCount = Return objs ->
  exists section,
    afterHeader "[HitObjects]" text = Some section /\ section <> []
    /\ objs = sort hitLe (collect (parseHitObjectLine keyCount)
                                  (sectionLines section)).
Proof.
  unfold parseHitObjects.
  destruct (afterHeader "[HitObjects]" text) as [[|c s]|]; try discriminate.
  intros [= <-]. exists (c :: s). repeat split. discriminate.
Qed.

Lemma parsed_hit_object text keyCount objs obj :
  parseHitObjects text keyCount = Return objs -> In obj objs ->
  exists line, parseHitObjectLine keyCount line = Some obj.
Proof.
  intros H Hin. apply parseHitObjects_inv in H as (section & _ & _ & ->).
  apply in_sort, in_collect in Hin as (line & _ & Hl). eauto.
Qed.

Lemma parseOsuFile_inv text pm :
  parseOsuFile text = Return pm ->
  exists md,
    parseMetadata text = Return md
    /\ parseHitObjects text (orDefault (circleSize md) 4) = Return (hitObjects pm)
    /\ pm = mkParsedMap (hitObjects pm) (parseTimingPoints text) md
              (length (hitObjects pm))
              (length (filter (fun obj => truthyFlag (isLongNote obj))
                              (hitObjects pm)))
              (maxOrZero (List.map endOrTime (hitObjects pm)))
              (orDefault (circleSize md) 4).
Proof.
  unfold parseOsuFile.
  destruct (parseMetadata text) as [md|e]; [|discriminate]. simpl.
  destruct (parseHitObjects text (orDefault (circleSize md) 4)) as [objs|e]
    eqn:E; [|discriminate]. simpl.
  intros [= <-]. exists md. simpl. repeat split; auto.
Qed.

Lemma land_pow2 a n :
  (0 <= n)%Z -> Z.land a (2 ^ n) = if Z.testbit a n then (2 ^ n)%Z else 0%Z.
Proof.
  intros Hn. apply Z.bits_inj'. intros k Hk.
  rewrite Z.land_spec, Z.pow2_bits_eqb by exact Hn.
  destruct (Z.eqb_spec n k) as [->|Hne].
  - rewrite andb_true_r. destruct (Z.testbit a k) eqn:E.
    + now rewrite Z.pow2_bits_true.
    + now rewrite Z.bits_0.
  - rewrite andb_false_r. destruct (Z.testbit a n).
    + now rewrite Z.pow2_bits_false.
    + now rewrite Z.bits_0.
Qed.

Lemma toInt32_testbit n k :
  (0 <= k < 32)%Z -> Z.testbit (toInt32 n) k = Z.testbit n k.
Proof.
  intros Hk. unfold toInt32.
  rewrite <- (Z.mod_pow2_bits_low n 32 k) by lia.
  destruct (2 ^ 31 <=? n mod 2 ^ 32)%Z; [|reflexivity].
  rewrite <- (Z.mod_pow2_bits_low (n mod 2 ^ 32 - 2 ^ 32) 32 k) by lia.
  f_equal. rewrite Zminus_mod, Z_mod_same_full, Z.sub_0_r.
  now rewrite !Zmod_mod.
Qed.

(** The HOLD test reads bit 7 of [type], whatever its size. *)
Lemma holdBit_testbit type : holdBit type = Z.testbit type 7.
Proof.
  unfold holdBit. change (toInt32 HOLD) with (2 ^ 7)%Z.
  rewrite land_pow2 by lia. rewrite toInt32_testbit by lia.
  destruct (Z.testbit type 7); reflexivity.
Qed.

Lemma holdBit_land type : holdBit type = true <-> Z.land type 128 <> 0%Z.
Proof.
  rewrite holdBit_testbit. change 128%Z with (2 ^ 7)%Z.
  rewrite land_pow2 by lia. destruct (Z.testbit type 7); split; intros H;
    try discriminate; try reflexivity. now contradiction H.
Qed.

Lemma endTime_digits field m :
  exec false endTimeRegex field = Some m ->
  exists e, parseInt (group m 1) = Num e /\ (0 <= e)%Z.
Proof.
  intros He. apply (exec_digits_group _ _ _ 1 He eq_refl). body_of.
Qed.

(** The end time in terms of the release time of the 6th field. *)
Lemma defaultEndTime_release isLong objectParams time :
  defaultEndTime (decodeEndTime isLong objectParams) time
  = match isLong, releaseTime objectParams with
    | true, Some e => if Z.eqb e 0 then time else e
    | _, _ => time
    end.
Proof.
  assert (N : exec false endTimeRegex [] = None) by reflexivity.
  unfold decodeEndTime, releaseTime.
  destruct isLong, objectParams as [[|c ps]|]; rewrite ?N; try reflexivity;
    (destruct (exec false endTimeRegex (c :: ps)) as [m|] eqn:E;
     [destruct (endTime_digits _ _ E) as (e & -> & _)|]);
    simpl; unfold truthyZ; try reflexivity.
  now destruct (Z.eqb e 0).
Qed.

(** What the parser derives for every object it returns. *)
Lemma hit_object_derived text keyCount objs obj :
  parseHitObjects text keyCount = Return objs -> In obj objs ->
  (0 <= x obj)%Z /\ (0 <= time obj)%Z /\ (0 <= type obj)%Z
  /\ column obj = Some (columnOf (x obj) keyCount)
  /\ isLongNote obj = Some (Z.testbit (type obj) 7)
  /\ endTime obj
     = Some match Z.testbit (type obj) 7, releaseTime (objectParams obj) with
            | true, Some e => if Z.eqb e 0 then time obj else e
            | _, _ => time obj
            end.
Proof.
  intros H Hin. destruct (parsed_hit_object _ _ _ _ H Hin) as (line & Hl).
  apply hit_line_derived in Hl as (Hx & Ht & Hty & Hc & Hl & He).
  rewrite defaultEndTime_release, holdBit_testbit in He.
  rewrite holdBit_testbit in Hl. tauto.
Qed.

(* ================================================================== *)
(** ** The summary of parseOsuFile *)

Lemma fold_max_spec vs : forall v,
  let m := fold_left Z.max vs v in
  (m = v \/ In m vs) /\ (v <= m)%Z /\ (forall u, In u vs -> (u <= m)%Z).
Proof.
  induction vs as [|w vs IH]; intros v; simpl.
  - split; [now left|]. split; [lia|]. intros u [].
  - destruct (IH (Z.max v w)) as ([Hm|Hm] & Hle & Hall).
    + split; [|split].
      * rewrite Hm. destruct (Z.max_spec v w) as [[_ ->]|[_ ->]]; auto.
      * lia.
      * intros u [<-|Hu]; [lia|auto].
    + split; [|split].
      * auto.
      * lia.
      * intros u [<-|Hu]; [lia|auto].
Qed.

Lemma maxOrZero_spec vs :
  vs <> [] ->
  In (maxOrZero vs) vs /\ (forall u, In u vs -> (u <= maxOrZero vs)%Z).
Proof.
  destruct vs as [|v vs]; [contradiction|]. intros _. simpl.
  destruct (fold_max_spec vs v) as (Hm & Hle & Hall). split.
  - destruct Hm as [->|Hm]; auto.
  - intros u [<-|Hu]; auto.
Qed.

(** For an object of the parser, [obj.endTime || obj.time] is its end
    time. *)
Lemma endOrTime_parsed text keyCount objs obj :
  parseHitObjects text keyCount = Return objs -> In obj objs ->
  endTime obj = Some (endOrTime obj).
Proof.
  intros H Hin.
  destruct (hit_object_derived _ _ _ _ H Hin) as (_ & _ & _ & _ & _ & He).
  unfold endOrTime. rewrite He. f_equal. unfold truthyZ.
  destruct (Z.testbit (type obj) 7), (releaseTime (objectParams obj)) as [e|];
    repeat (match goal with
            | |- context [(?a =? 0)%Z] => destruct (Z.eqb_spec a 0)
            end; simpl);
    congruence.
Qed.

Lemma parseTimingPoints_sorted text :
  StronglySorted (fun a b => (tp_time a <= tp_time b)%Q)
                 (parseTimingPoints text).
Proof.
  unfold parseTimingPoints.
  destruct (afterHeader "[TimingPoints]" text) as [[|c s]|];
    try constructor.
  apply timing_sorted.
Qed.

Lemma parseHitObjects_sorted text keyCount objs :
  parseHitObjects text keyCount = Return objs ->
  StronglySorted (fun a b => (time a <= time b)%Z) objs.
Proof.
  intros H. apply parseHitObjects_inv in H as (section & _ & _ & ->).
  apply hit_sorted.
Qed.

(* ================================================================== *)
(** ** organizeNotesByColumn *)









(* ================================================================== *)
(** ** Headers and sections *)

Lemma canon_bracket a : char_eqb (canon a) (canon 91%N) = N.eqb a 91.
Proof.
  change (canon 91%N) with 91%N. unfold char_eqb, canon, in_range.
  destruct (N.leb_spec 97 a), (N.leb_spec a 122); simpl;
    destruct (N.eqb_spec a 91); destruct (N.eqb_spec (a - 32) 91);
    try reflexivity; lia.
Qed.

Lemma isAny_true a : isAny a = true.
Proof. unfold isAny. apply orb_negb_r. Qed.

(** A header matches where it is a prefix of the remaining text. *)
Lemma run_lits h : forall st,
  run true (lits h) st
  = if ciPrefix h (rest st)
    then [MState (pos st + length h) (skipn (length h) (rest st)) (caps st)]
    else [].
Proof.
  induction h as [|c h IH]; intros [p s cs]; simpl.
  - now rewrite Nat.add_0_r.
  - unfold step1. simpl. destruct s as [|a s]; [reflexivity|]. simpl.
    unfold litMatches. destruct (char_eqb (canon a) (canon c)); [|reflexivity].
    simpl. rewrite IH, app_nil_r. simpl.
    destruct (ciPrefix h s); [|reflexivity].
    now rewrite Nat.add_succ_r.
Qed.

Lemma run_lookBracket st :
  run true lookBracket st
  = if match rest st with
       | [] => true
       | a :: _ => N.eqb a 91
       end
    then [st] else [].
Proof.
  destruct st as [p s cs]. simpl. unfold step1. simpl.
  destruct s as [|a s]; [reflexivity|]. simpl.
  unfold litMatches. change (ch "[") with 91%N. rewrite canon_bracket.
  now destruct (N.eqb a 91).
Qed.

(** The lazy star of a section stops at the first [[] or at the end. *)
Lemma lazy_section p1 r1 cs : forall cur done fuel,
  r1 = done ++ cur -> length cur < fuel ->
  hd_error
    (flat_map (run true lookBracket)
       (List.map (closeGroup p1 r1)
          (starLoop (run true (Cls isAny)) false fuel
                    (MState (p1 + length done) cur cs))))
  = Some (MState (p1 + length (done ++ takeWhile notBracket cur))
                 (dropWhile notBracket cur)
                 ((1, done ++ takeWhile notBracket cur) :: cs)).
Proof.
  set (step := run true (Cls isAny)).
  assert (Hstep : forall p a cur cs,
             step (MState p (a :: cur) cs) = [MState (S p) cur cs]).
  { intros. unfold step. simpl. unfold step1. simpl. now rewrite isAny_true. }
  assert (Hdone : forall done cur : str,
             firstn (p1 + length done - p1) (done ++ cur) = done).
  { intros. now apply firstn_consumed. }
  induction cur as [|a cur IH]; intros done fuel Hr Hf;
    (destruct fuel as [|fuel]; [simpl in Hf; lia|]).
  - simpl. unfold step1. simpl. rewrite Hr, Hdone. now rewrite !app_nil_r.
  - cbn [starLoop]. rewrite Hstep. cbn [flat_map pos caps rest length].
    rewrite app_nil_r.
    assert (Hlt : Nat.ltb (length cur) (S (length cur)) = true)
      by (apply Nat.ltb_lt; lia).
    rewrite Hlt. cbn [List.map flat_map].
    rewrite run_lookBracket. unfold closeGroup at 1 2. cbn [rest pos caps].
    cbn [takeWhile dropWhile]. unfold notBracket at 1 3 5.
    destruct (N.eqb a 91) eqn:E; cbn [negb hd_error app].
    + rewrite Hr, Hdone. now rewrite !app_nil_r.
    + specialize (IH (done ++ [a]) fuel).
      rewrite length_app in IH. cbn [length] in IH.
      replace (p1 + (length done + 1)) with (S (p1 + length done)) in IH by lia.
      rewrite IH.
      * now rewrite <- !app_assoc.
      * rewrite Hr, <- app_assoc. reflexivity.
      * simpl in Hf. lia.
Qed.

Lemma run_seq ic a b st :
  run ic (Seq a b) st = flat_map (run ic b) (run ic a st).
Proof. reflexivity. Qed.

Lemma run_grp ic n a st :
  run ic (Grp n a) st
  = List.map (fun st' =>
                MState (pos st') (rest st')
                       ((n, firstn (pos st' - pos st) (rest st)) :: caps st'))
             (run ic a st).
Proof. reflexivity. Qed.

Lemma run_star ic g a st :
  run ic (Star g a) st = starLoop (run ic a) g (S (length (rest st))) st.
Proof. reflexivity. Qed.

(** Where the header starts the remaining text, the section pattern
    matches and captures the text up to the next [[]. *)
Lemma run_section header st :
  hd_error (run true (sectionRegex header) st)
  = if ciPrefix (lit header) (rest st)
    then let post := skipn (length (lit header)) (rest st) in
         Some (MState (pos st + length (lit header)
                       + length (takeWhile notBracket post))
                      (dropWhile notBracket post)
                      ((1, takeWhile notBracket post) :: caps st))
    else None.
Proof.
  unfold sectionRegex. fold lookBracket.
  rewrite run_seq, run_lits.
  destruct (ciPrefix (lit header) (rest st)); [|reflexivity].
  cbn [flat_map]. rewrite app_nil_r, run_seq, run_grp, run_star.
  cbn [pos rest caps].
  set (p1 := pos st + length (lit header)).
  set (r1 := skipn (length (lit header)) (rest st)).
  pose proof (lazy_section p1 r1 (caps st) r1 [] (S (length r1)) eq_refl
                           (Nat.lt_succ_diag_r _)) as H.
  cbn [length app] in H. rewrite Nat.add_0_r in H. exact H.
Qed.

Lemma exec_from_section header : forall text i,
  match exec_from true (sectionRegex header) i text with
  | Some m =>
      exists pre post,
        cut (lit header) text = Some (pre, post)
        /\ group m 1 = Some (takeWhile notBracket post)
  | None => cut (lit header) text = None
  end.
Proof.
  induction text as [|a text IH]; intros i.
  - cbn [exec_from cut].
    pose proof (run_section header (MState i [] [])) as H. cbn [rest] in H.
    destruct (run true (sectionRegex header) (MState i [] [])) as [|m l];
      destruct (ciPrefix (lit header) []); try discriminate; [reflexivity|].
    injection H as ->. eexists _, _. split; reflexivity.
  - cbn [exec_from cut].
    pose proof (run_section header (MState i (a :: text) [])) as H.
    cbn [rest] in H.
    destruct (run true (sectionRegex header) (MState i (a :: text) []))
      as [|m l]; destruct (ciPrefix (lit header) (a :: text));
      try discriminate.
    + specialize (IH (S i)).
      destruct (exec_from true (sectionRegex header) (S i) text) as [m|].
      * destruct IH as (pre & post & -> & Hg). eauto.
      * now rewrite IH.
    + injection H as ->. eexists _, _. split; reflexivity.
Qed.

(** The section pattern captures the section body. *)
Lemma captureOf_section header text :
  captureOf (sectionRegex header) text = sectionBody header text.
Proof.
  unfold captureOf, sectionBody, exec.
  pose proof (exec_from_section header text 0) as H.
  destruct (exec_from true (sectionRegex header) 0 text) as [m|].
  - destruct H as (pre & post & -> & ->). reflexivity.
  - now rewrite H.
Qed.

Lemma exec_section_group header text m :
  exec true (sectionRegex header) text = Some m ->
  exists body, group m 1 = Some body /\ sectionBody header text = Some body.
Proof.
  intros He. pose proof (captureOf_section header text) as H.
  unfold captureOf in H. rewrite He in H.
  pose proof (exec_from_section header text 0) as H'.
  unfold exec in He. rewrite He in H'.
  destruct H' as (pre & post & _ & Hg). rewrite Hg in H. eauto.
Qed.

Lemma exec_section_none header text :
  exec true (sectionRegex header) text = None ->
  sectionBody header text = None.
Proof.
  intros He. rewrite <- captureOf_section. unfold captureOf. now rewrite He.
Qed.

Lemma ciPrefix_split h : forall s,
  ciPrefix h s = true ->
  exists h', s = h' ++ skipn (length h) s
             /\ List.map canon h' = List.map canon h.
Proof.
  induction h as [|c h IH]; intros s H.
  - exists []. split; reflexivity.
  - destruct s as [|a s]; [discriminate|]. simpl in H.
    apply andb_true_iff in H as [Hc Hp]. apply N.eqb_eq in Hc.
    destruct (IH s Hp) as (h' & Hs & Hh').
    exists (a :: h'). simpl. split; [now rewrite <- Hs|now rewrite Hc, Hh'].
Qed.

Lemma ciPrefix_app h : forall h' post,
  List.map canon h' = List.map canon h -> ciPrefix h (h' ++ post) = true.
Proof.
  induction h as [|c h IH]; intros h' post H; [reflexivity|].
  destruct h' as [|a h']; [discriminate|]. simpl in H.
  injection H as Hc Hh. simpl. rewrite (IH _ _ Hh), andb_true_r.
  now apply N.eqb_eq.
Qed.

Lemma cut_some h : forall s pre post,
  cut h s = Some (pre, post) ->
  exists h', s = pre ++ h' ++ post
             /\ List.map canon h' = List.map canon h
             /\ forall pre1 h1 post1,
                  s = pre1 ++ h1 ++ post1 ->
                  List.map canon h1 = List.map canon h ->
                  length pre <= length pre1.
Proof.
  assert (Base : forall s, ciPrefix h s = true ->
            exists h', s = [] ++ h' ++ skipn (length h) s
                       /\ List.map canon h' = List.map canon h
                       /\ forall pre1 h1 post1 : str,
                            s = pre1 ++ h1 ++ post1 ->
                            List.map canon h1 = List.map canon h ->
                            @length char [] <= length pre1).
  { intros s Hp. destruct (ciPrefix_split h s Hp) as (h' & Hs & Hh').
    exists h'. repeat split; auto. intros. simpl. lia. }
  induction s as [|a s IH]; intros pre post; simpl.
  - destruct (ciPrefix h []) eqn:Hp; [|discriminate].
    intros [= <- <-]. now apply Base.
  - destruct (ciPrefix h (a :: s)) eqn:Hp.
    + intros [= <- <-]. now apply Base.
    + destruct (cut h s) as [[pre' post']|] eqn:Hc; [|discriminate].
      intros [= <- <-].
      destruct (IH _ _ eq_refl) as (h' & Hs & Hh' & Hfirst).
      exists h'. split; [simpl; now rewrite <- Hs|]. split; [exact Hh'|].
      intros pre1 h1 post1 Hs1 Hh1. destruct pre1 as [|b pre1].
      * simpl in Hs1. rewrite Hs1, (ciPrefix_app h h1 post1 Hh1) in Hp.
        discriminate.
      * simpl in Hs1. injection Hs1 as _ Hs1. simpl.
        apply le_n_S. eapply Hfirst; eauto.
Qed.

Lemma cut_none h : forall s,
  cut h s = None ->
  forall pre h' post, s = pre ++ h' ++ post ->
                      List.map canon h' <> List.map canon h.
Proof.
  induction s as [|a s IH]; simpl; intros Hc pre h' post Hs Hh.
  - destruct (ciPrefix h []) eqn:Hp; [discriminate|].
    destruct pre; [|discriminate]. simpl in Hs.
    rewrite Hs, (ciPrefix_app h h' post Hh) in Hp. discriminate.
  - destruct (ciPrefix h (a :: s)) eqn:Hp; [discriminate|].
    destruct (cut h s) as [[pre' post']|] eqn:Hc'; [discriminate|].
    destruct pre as [|b pre].
    + simpl in Hs. rewrite Hs, (ciPrefix_app h h' post Hh) in Hp. discriminate.
    + simpl in Hs. injection Hs as _ Hs. exact (IH eq_refl _ _ _ Hs Hh).
Qed.

Lemma takeWhile_dropWhile {A} (p : A -> bool) l :
  l = takeWhile p l ++ dropWhile p l.
Proof.
  induction l as [|a l IH]; [reflexivity|]. simpl.
  destruct (p a); [|reflexivity]. simpl. now rewrite <- IH.
Qed.

Lemma forallb_takeWhile {A} (p : A -> bool) l :
  forallb p (takeWhile p l) = true.
Proof.
  induction l as [|a l IH]; [reflexivity|]. simpl.
  destruct (p a) eqn:E; [|reflexivity]. simpl. now rewrite E.
Qed.

Lemma dropWhile_head (p : char -> bool) (l : str) :
  headIs p (dropWhile p l) = false.
Proof.
  induction l as [|a l IH]; [reflexivity|]. simpl.
  destruct (p a) eqn:E; [exact IH|]. simpl. exact E.
Qed.

(** A section is absent exactly when its header does not occur. *)
Lemma sectionBody_none header text :
  sectionBody header text = None <-> ~ occursCI header text.
Proof.
  unfold sectionBody, occursCI, sameHeader. split.
  - destruct (cut (lit header) text) as [[pre post]|] eqn:Hc; [discriminate|].
    intros _ (pre & h' & post & Hs & Hh).
    exact (cut_none _ _ Hc _ _ _ Hs Hh).
  - intros Hn. destruct (cut (lit header) text) as [[pre post]|] eqn:Hc;
      [|reflexivity].
    destruct (cut_some _ _ _ _ Hc) as (h' & Hs & Hh & _).
    contradiction Hn. eauto.
Qed.








(* ================================================================== *)
(** ** parseMetadata never fails *)

Lemma fieldRegex_defines key : defines 1 (fieldRegex key) = true.
Proof. unfold fieldRegex. simpl. apply orb_true_r. Qed.

Lemma assignTrimmed_field set key body md :
  assignTrimmed set (exec true (fieldRegex key) body) md
  = Return match option_map trim (fieldValue key body) with
           | Some v => set v md
           | None => md
           end.
Proof.
  unfold fieldValue, captureOf, assignTrimmed.
  destruct (exec true (fieldRegex key) body) as [m|] eqn:He; [|reflexivity].
  pose proof (exec_group_defined _ _ _ _ 1 He (fieldRegex_defines key)) as Hd.
  destruct (group m 1) as [w|]; [reflexivity|contradiction].
Qed.

(** A capture of the first group, once the pattern has matched. *)
Lemma exec_capture r body m :
  defines 1 r = true -> exec true r body = Some m ->
  exists w, group m 1 = Some w /\ captureOf r body = Some w.
Proof.
  intros Hd He. unfold captureOf. rewrite He.
  pose proof (exec_group_defined _ _ _ _ 1 He Hd) as Hg.
  destruct (group m 1) as [w|]; [eauto|contradiction].
Qed.

Lemma parseGeneral_eq text md :
  parseGeneral text md
  = Return match sectionBody "[General]" text with
           | None => md
           | Some body =>
               let md1 := match option_map trim (fieldValue "AudioFilename:" body) with
                          | Some v => set_audioFilename v md
                          | None => md
                          end in
               match captureOf modeRegex body with
               | Some w => set_mode (parseInt (Some w)) md1
               | None => md1
               end
           end.
Proof.
  unfold parseGeneral.
  destruct (exec true (sectionRegex "[General]") text) as [m|] eqn:He.
  - destruct (exec_section_group _ _ _ He) as (body & -> & ->).
    cbn [str_match bind]. rewrite assignTrimmed_field. cbn [bind].
    destruct (exec true modeRegex body) as [mm|] eqn:Hm.
    + destruct (exec_capture modeRegex body mm eq_refl Hm) as (w & -> & ->).
      reflexivity.
    + unfold captureOf. now rewrite Hm.
  - now rewrite (exec_section_none _ _ He).
Qed.

Lemma parseMetadataSection_eq text md :
  parseMetadataSection text md
  = Return match sectionBody "[Metadata]" text with
           | None => md
           | Some body =>
               let assign set (key : string) md :=
                 match option_map trim (fieldValue key body) with
                 | Some v => set v md
                 | None => md
                 end in
               assign set_version "Version:"%string
                 (assign set_creator "Creator:"%string
                    (assign set_artist "Artist:"%string
                       (assign set_title "Title:"%string md)))
           end.
Proof.
  unfold parseMetadataSection.
  destruct (exec true (sectionRegex "[Metadata]") text) as [m|] eqn:He.
  - destruct (exec_section_group _ _ _ He) as (body & -> & ->).
    cbn [str_match bind]. rewrite !assignTrimmed_field. cbn [bind].
    rewrite !assignTrimmed_field. cbn [bind].
    rewrite !assignTrimmed_field. cbn [bind].
    rewrite !assignTrimmed_field. reflexivity.
  - now rewrite (exec_section_none _ _ He).
Qed.

Lemma parseDifficulty_eq text md :
  parseDifficulty text md
  = Return match sectionBody "[Difficulty]" text with
           | None => md
           | Some body =>
               match captureOf circleSizeRegex body with
               | Some w => set_circleSize (parseFloat (Some w)) md
               | None => md
               end
           end.
Proof.
  unfold parseDifficulty.
  destruct (exec true (sectionRegex "[Difficulty]") text) as [m|] eqn:He.
  - destruct (exec_section_group _ _ _ He) as (body & -> & ->).
    cbn [str_match bind].
    destruct (exec true circleSizeRegex body) as [mm|] eqn:Hm.
    + destruct (exec_capture circleSizeRegex body mm eq_refl Hm)
        as (w & -> & ->). reflexivity.
    + unfold captureOf. now rewrite Hm.
  - now rewrite (exec_section_none _ _ He).
Qed.

(** [parseMetadata] returns, and returns the metadata of the
    specification. *)
Lemma parseMetadata_eq text : parseMetadata text = Return (metadataOf text).
Proof.
  unfold parseMetadata. rewrite parseGeneral_eq. cbn [bind].
  rewrite parseMetadataSection_eq. cbn [bind]. rewrite parseDifficulty_eq.
  f_equal. unfold metadataOf, trimmedField, inSection.
  destruct (sectionBody "[General]" text) as [g|];
    destruct (sectionBody "[Metadata]" text) as [m|];
    destruct (sectionBody "[Difficulty]" text) as [d|]; cbv zeta;
    repeat match goal with
           | |- context [option_map trim (fieldValue ?k ?b)] =>
               destruct (option_map trim (fieldValue k b))
           | |- context [captureOf ?r ?b] => destruct (captureOf r b)
           end; reflexivity.
Qed.



(* ================================================================== *)
(** ** The text after a header *)

Lemma split_go_skip ic sep w : forall post i piece,
  split_go ic sep i (length w) piece (w ++ post)
  = split_go ic sep (i + length w) 0 piece post.
Proof.
  induction w as [|a w IH]; intros post i piece; simpl.
  - rewrite Nat.add_0_r. now destruct post.
  - rewrite IH. f_equal. lia.
Qed.

Lemma ciPrefix_length h : forall s,
  ciPrefix h s = true -> length h <= length s.
Proof.
  induction h as [|c h IH]; intros [|a s] H; simpl in *; try lia;
    try discriminate.
  apply andb_true_iff in H as [_ H]. apply IH in H. lia.
Qed.

(** Splitting at a header: the text before its first occurrence, then the
    pieces of the text after it. *)
Lemma split_go_lits c h0 : forall s i piece,
  let h := c :: h0 in
  split_go true (lits h) i 0 piece s
  = match cut h s with
    | None => [rev piece ++ s]
    | Some (pre, post) =>
        (rev piece ++ pre)
          :: split_go true (lits h) (i + length pre + length h) 0 [] post
    end.
Proof.
  intros s i piece h. revert i piece.
  induction s as [|a s IH]; intros i piece.
  - subst h. simpl. now rewrite app_nil_r.
  - cbn [split_go cut]. rewrite run_lits. cbn [rest pos].
    destruct (ciPrefix h (a :: s)) eqn:Hp.
    + assert (Hlt : Nat.ltb i (i + length h) = true)
        by (apply Nat.ltb_lt; simpl; lia).
      cbn [pos]. rewrite Hlt, app_nil_r. f_equal.
      apply ciPrefix_length in Hp. subst h. cbn [length] in *.
      replace (i + S (length h0) - i - 1) with (length (firstn (length h0) s))
        by (rewrite length_firstn; lia).
      rewrite <- (firstn_skipn (length h0) s) at 2.
      rewrite split_go_skip. cbn [skipn]. f_equal.
      rewrite length_firstn. lia.
    + rewrite IH. destruct (cut h s) as [[pre post]|].
      * simpl. rewrite <- app_assoc. simpl. do 2 f_equal. lia.
      * simpl. now rewrite <- app_assoc.
Qed.

(** [s.split(/\[Name\]/i)[1]]: the text between the first header and the
    next one, or the end. *)
Lemma afterHeader_cut header text :
  lit header <> [] ->
  afterHeader header text
  = match cut (lit header) text with
    | None => None
    | Some (_, post) =>
        Some match cut (lit header) post with
             | None => post
             | Some (pre', _) => pre'
             end
    end.
Proof.
  intros Hne. unfold afterHeader, split.
  destruct (lit header) as [|c h0]; [contradiction|].
  rewrite (split_go_lits c h0). destruct (cut (c :: h0) text) as [[pre post]|].
  - simpl. rewrite (split_go_lits c h0).
    now destruct (cut (c :: h0) post) as [[pre' post']|].
  - reflexivity.
Qed.

Lemma afterHeader_none header text :
  lit header <> [] ->
  (afterHeader header text = None <-> ~ occursCI header text).
Proof.
  intros Hne. rewrite (afterHeader_cut _ _ Hne), <- sectionBody_none.
  unfold sectionBody. destruct (cut (lit header) text) as [[pre post]|];
    split; intros H; try discriminate; reflexivity.
Qed.

(** The only exception of [parseOsuFile] is the one of [parseHitObjects],
    thrown when nothing follows the first [[HitObjects]] header. *)
Lemma parseOsuFile_throw text e :
  parseOsuFile text = Throw e <->
  e = missingHitObjects
  /\ (afterHeader "[HitObjects]" text = None
      \/ afterHeader "[HitObjects]" text = Some []).
Proof.
  unfold parseOsuFile. rewrite parseMetadata_eq. cbn [bind].
  unfold parseHitObjects.
  destruct (afterHeader "[HitObjects]" text) as [[|c s]|]; cbn [bind]; split.
  - intros [= <-]. auto.
  - intros [-> _]. reflexivity.
  - discriminate.
  - intros [_ [H|H]]; discriminate.
  - intros [= <-]. auto.
  - intros [-> _]. reflexivity.
Qed.

(** Without a [[HitObjects]] header the parse is aborted. *)
Lemma missing_header_throws text :
  ~ occursCI "[HitObjects]" text ->
  parseOsuFile text = Throw missingHitObjects.
Proof.
  intros H. apply parseOsuFile_throw. split; [reflexivity|left].
  apply afterHeader_none; [discriminate|exact H].
Qed.

(** Without a [[TimingPoints]] header there are no timing points. *)
Lemma missing_timing_section text :
  ~ occursCI "[TimingPoints]" text -> parseTimingPoints text = [].
Proof.
  intros H. unfold parseTimingPoints.
  apply afterHeader_none in H; [|discriminate]. now rewrite H.
Qed.

(* ================================================================== *)
(** ** The first match of a pattern *)

Lemma hd_error_app {A} (l l' : list A) a :
  hd_error l = Some a -> hd_error (l ++ l') = Some a.
Proof. destruct l; [discriminate|]. now intros [= ->]. Qed.

Lemma first_seq ic a b st s1 s2 :
  first ic a st = Some s1 -> first ic b s1 = Some s2 ->
  first ic (Seq a b) st = Some s2.
Proof.
  unfold first. rewrite run_seq.
  destruct (run ic a st) as [|s l]; [discriminate|]. intros [= ->] H.
  simpl. now apply hd_error_app.
Qed.

Lemma first_lit c s p cs :
  first false (Lit c) (MState p (c :: s) cs) = Some (MState (S p) s cs).
Proof.
  unfold first. simpl. unfold step1. simpl. unfold litMatches, char_eqb.
  now rewrite N.eqb_refl.
Qed.

Lemma first_grp ic n a st s1 :
  first ic a st = Some s1 ->
  first ic (Grp n a) st
  = Some (MState (pos s1) (rest s1)
                 ((n, firstn (pos s1 - pos st) (rest st)) :: caps s1)).
Proof.
  unfold first. rewrite run_grp.
  destruct (run ic a st) as [|s l]; [discriminate|]. now intros [= ->].
Qed.

(** A greedy star over a class first takes the whole run of the class. *)
Lemma first_star_cls ic p cs t :
  headIs p t = false ->
  forall w fuel i,
    forallb p w = true -> length (w ++ t) < fuel ->
    hd_error (starLoop (run ic (Cls p)) true fuel (MState i (w ++ t) cs))
    = Some (MState (i + length w) t cs).
Proof.
  intros Ht. set (step := run ic (Cls p)).
  assert (Hstep : forall i a s, p a = true ->
             step (MState i (a :: s) cs) = [MState (S i) s cs]).
  { intros. unfold step. simpl. unfold step1. simpl. now rewrite H. }
  assert (Hstop : forall i, step (MState i t cs) = []).
  { intros. unfold step. simpl. unfold step1. simpl. rewrite Ht.
    now destruct t. }
  induction w as [|a w IH]; intros fuel i Hw Hf;
    (destruct fuel as [|fuel]; [simpl in Hf; lia|]).
  - cbn [starLoop app]. rewrite Hstop. simpl. now rewrite Nat.add_0_r.
  - simpl in Hw. apply andb_true_iff in Hw as [Ha Hw].
    cbn [starLoop app]. rewrite (Hstep _ _ _ Ha).
    cbn [flat_map pos caps rest length].
    assert (Hlt : Nat.ltb (length (w ++ t)) (S (length (w ++ t))) = true)
      by (apply Nat.ltb_lt; lia).
    rewrite Hlt, app_nil_r. apply hd_error_app.
    rewrite IH; [|exact Hw|simpl in Hf; lia].
    do 2 f_equal. simpl. lia.
Qed.

Lemma first_plus_cls ic p cs t w i :
  headIs p t = false -> w <> [] -> forallb p w = true ->
  first ic (Plus (Cls p)) (MState i (w ++ t) cs)
  = Some (MState (i + length w) t cs).
Proof.
  intros Ht Hne Hw. destruct w as [|a w]; [contradiction|].
  simpl in Hw. apply andb_true_iff in Hw as [Ha Hw].
  unfold Plus. eapply first_seq.
  - unfold first. simpl. unfold step1. simpl. rewrite Ha. reflexivity.
  - unfold first. rewrite run_star. cbn [rest].
    rewrite (first_star_cls ic p cs t Ht w _ (S i) Hw (Nat.lt_succ_diag_r _)).
    do 2 f_equal. simpl. lia.
Qed.

(** One component of the sub-record, the colon after it, and the rest of
    the pattern. *)
Lemma first_component n r ds t i cs m :
  digitRun ds ->
  first false r (MState (S (i + length ds)) t ((n, ds) :: cs)) = Some m ->
  first false (Seq (Grp n digits) (Seq colon r)) (MState i (ds ++ 58%N :: t) cs)
  = Some m.
Proof.
  intros [Hne Hd] Hr. eapply first_seq.
  - apply first_grp. apply (first_plus_cls false isDigit cs (58%N :: t) ds i);
      [reflexivity|exact Hne|exact Hd].
  - cbn [pos rest caps]. rewrite (firstn_consumed ds _ i (i + length ds) eq_refl).
    eapply first_seq; [apply first_lit|exact Hr].
Qed.

Lemma exec_first ic r s m :
  first ic r (MState 0 s []) = Some m -> exec ic r s = Some m.
Proof.
  unfold first, exec. destruct s; simpl;
    destruct (run ic r _) as [|m0 l]; try discriminate; now intros [= ->].
Qed.

(** The release time of a field of the shape
    [endTime:extra1:extra2:extra3:rest] is its first component. *)
Lemma releaseTime_subrecord ds e1 e2 e3 tail :
  digitRun ds -> digitRun e1 -> digitRun e2 -> digitRun e3 ->
  headIs isDot tail = true ->
  releaseTime (Some (subRecord ds e1 e2 e3 tail)) = Some (digitsVal ds).
Proof.
  intros Hds H1 H2 H3 Ht. unfold releaseTime, subRecord.
  assert (Hm : exists m,
             exec false endTimeRegex
                  (ds ++ 58%N :: e1 ++ 58%N :: e2 ++ 58%N :: e3 ++ 58%N :: tail)
             = Some m /\ group m 1 = Some ds).
  { assert (Hw : takeWhile isDot tail <> []).
    { destruct tail as [|a tl]; [discriminate|]. simpl in *. now rewrite Ht. }
    eexists. split.
    - apply exec_first. unfold endTimeRegex.
      do 4 (apply first_component; [assumption|]).
      apply first_grp.
      rewrite (takeWhile_dropWhile isDot tail) at 1.
      apply first_plus_cls;
        [apply dropWhile_head|exact Hw|apply forallb_takeWhile].
    - reflexivity. }
  destruct Hm as (m & -> & ->).
  destruct Hds as [Hne Hd]. unfold parseInt.
  rewrite (takeWhile_all _ _ Hd). destruct ds; [contradiction|reflexivity].
Qed.

(** A long note with such a field and a non-zero first component ends at
    that component. *)
Lemma long_note_end_time text keyCount objs obj ds e1 e2 e3 tail :
  parseHitObjects text keyCount = Return objs -> In obj objs ->
  objectParams obj = Some (subRecord ds e1 e2 e3 tail) ->
  digitRun ds -> digitRun e1 -> digitRun e2 -> digitRun e3 ->
  headIs isDot tail = true ->
  Z.land (type obj) 128 <> 0%Z -> digitsVal ds <> 0%Z ->
  isLongNote obj = Some true /\ endTime obj = Some (digitsVal ds).
Proof.
  intros H Hin Hp Hds H1 H2 H3 Ht Hty Hnz.
  destruct (hit_object_derived _ _ _ _ H Hin) as (_ & _ & _ & _ & Hl & He).
  apply holdBit_land in Hty. rewrite holdBit_testbit in Hty.
  rewrite Hty in Hl, He. split; [exact Hl|].
  rewrite Hp, (releaseTime_subrecord _ _ _ _ _ Hds H1 H2 H3 Ht) in He.
  apply Z.eqb_neq in Hnz. now rewrite Hnz in He.
Qed.

(** A note without the HOLD bit ends at its onset, whatever follows. *)
Lemma plain_note_end_time text keyCount objs obj :
  parseHitObjects text keyCount = Return objs -> In obj objs ->
  Z.land (type obj) 128 = 0%Z ->
  isLongNote obj = Some false /\ endTime obj = Some (time obj).
Proof.
  intros H Hin Hty.
  destruct (hit_object_derived _ _ _ _ H Hin) as (_ & _ & _ & _ & Hl & He).
  destruct (Z.testbit (type obj) 7) eqn:E.
  - rewrite <- holdBit_testbit in E. apply holdBit_land in E. contradiction.
  - auto.
Qed.

(* ================================================================== *)
(** ** More on the records the parser returns *)

Lemma hit_line_fields keyCount line obj :
  parseHitObjectLine keyCount line = Some obj ->
  exists m,
    exec false hitObjectRegex line = Some m
    /\ parseInt (group m 1) = Num (x obj)
    /\ parseInt (group m 2) = Num (y obj)
    /\ parseInt (group m 3) = Num (time obj)
    /\ parseInt (group m 4) = Num (type obj)
    /\ parseInt (group m 5) = Num (hitSound obj)
    /\ objectParams obj = group m 6
    /\ hitSample obj = group m 7.
Proof.
  unfold parseHitObjectLine.
  destruct (exec false hitObjectRegex line) as [m|] eqn:He; [|discriminate].
  destruct (hit_groups_numeric _ _ He)
    as (x & y & t & ty & hs & Hx & Hy & Ht & Hty & Hhs & _).
  rewrite Hx, Hy, Ht, Hty, Hhs. intros [= <-]. exists m. simpl. tauto.
Qed.

Lemma digits_group_nonneg r s m n v :
  exec false r s = Some m ->
  defines n r = true ->
  (forall body, In (n, body) (groups r) -> body = digits) ->
  parseInt (group m n) = Num v -> (0 <= v)%Z.
Proof.
  intros He Hd Hb Hv.
  destruct (exec_digits_group _ _ _ n He Hd Hb) as (v' & Hv' & Hle).
  congruence.
Qed.

Lemma releaseTime_nonneg objectParams e :
  releaseTime objectParams = Some e -> (0 <= e)%Z.
Proof.
  unfold releaseTime. destruct objectParams as [field|]; [|discriminate].
  destruct (exec false endTimeRegex field) as [m|] eqn:He; [|discriminate].
  destruct (endTime_digits _ _ He) as (v & -> & Hv). now intros [= <-].
Qed.

Lemma timing_line_fields line tp :
  parseTimingLine line = Some tp ->
  exists m,
    exec false timingRegex line = Some m
    /\ parseFloat (group m 1) = Num (tp_time tp)
    /\ parseFloat (group m 2) = Num (beatLength tp)
    /\ parseInt (group m 3) = Num (meter tp)
    /\ parseInt (group m 4) = Num (sampleSet tp)
    /\ parseInt (group m 5) = Num (sampleIndex tp)
    /\ parseInt (group m 6) = Num (volume tp)
    /\ uninherited tp = isOne (group m 7)
    /\ parseInt (group m 8) = Num (effects tp).
Proof.
  unfold parseTimingLine.
  destruct (exec false timingRegex line) as [m|] eqn:He; [|discriminate].
  destruct (timing_groups_numeric _ _ He)
    as (t & b & me & ss & si & vo & ef & H1 & H2 & H3 & H4 & H5 & H6 & H8).
  rewrite H1, H2, H3, H4, H5, H6, H8. intros [= <-]. exists m. simpl. tauto.
Qed.

Lemma parsed_timing_point text tp :
  In tp (parseTimingPoints text) ->
  exists line, parseTimingLine line = Some tp.
Proof.
  unfold parseTimingPoints.
  destruct (afterHeader "[TimingPoints]" text) as [[|c s]|]; try intros [].
  intros Hin. apply in_sort, in_collect in Hin as (line & _ & Hl). eauto.
Qed.

Lemma length_collect {A} (f : str -> option A) lines :
  length (collect f lines)
  = length (filter (fun line => match f line with
                                | Some _ => true
                                | None => false
                                end) lines).
Proof.
  induction lines as [|l lines IH]; [reflexivity|].
  rewrite collect_cons. simpl. destruct (f l); simpl; now rewrite IH.
Qed.

Lemma hit_line_matches keyCount line :
  match parseHitObjectLine keyCount line with
  | Some _ => true
  | None => false
  end
  = match exec false hitObjectRegex line with
    | Some _ => true
    | None => false
    end.
Proof.
  destruct (exec false hitObjectRegex line) as [m|] eqn:He.
  - destruct (hit_line_total keyCount _ _ He) as (obj & ->). reflexivity.
  - unfold parseHitObjectLine. now rewrite He.
Qed.

(** The sort keeps the order of the records that have the same key. *)
Lemma filter_insert {A} (leb : A -> A -> bool) (p : A -> bool) a :
  (forall b, p a = true -> p b = true -> leb a b = true) ->
  forall l, filter p (insert leb a l) = filter p (a :: l).
Proof.
  intros Hp. induction l as [|b l IH]; [reflexivity|]. simpl.
  destruct (leb a b) eqn:E; [reflexivity|]. simpl. simpl in IH. rewrite IH.
  destruct (p a) eqn:Pa; [|reflexivity].
  destruct (p b) eqn:Pb; [|reflexivity].
  rewrite (Hp b eq_refl Pb) in E. discriminate.
Qed.

Lemma filter_sort {A} (leb : A -> A -> bool) (p : A -> bool) :
  (forall a b, p a = true -> p b = true -> leb a b = true) ->
  forall l, filter p (sort leb l) = filter p l.
Proof.
  intros Hp. induction l as [|a l IH]; [reflexivity|]. simpl sort.
  rewrite filter_insert by (intros b; apply Hp). simpl. now rewrite IH.
Qed.

Lemma testbit7_mod type :
  Z.testbit type 7 = (128 <=? type mod 256)%Z.
Proof.
  pose proof (Z.rem_mul_r type 128 2 ltac:(lia) ltac:(lia)) as H.
  change (128 * 2)%Z with 256%Z in H.
  pose proof (Z.mod_pos_bound type 128 ltac:(lia)) as H128.
  pose proof (Z.mod_pos_bound (type / 128) 2 ltac:(lia)) as H2.
  destruct (Z.testbit type 7) eqn:E.
  - apply Z.testbit_true in E; [|lia]. change (2 ^ 7)%Z with 128%Z in E.
    symmetry. apply Z.leb_le. lia.
  - symmetry. apply Z.leb_gt.
    assert (N : ((type / 128) mod 2 <> 1)%Z).
    { intros C. apply (Z.testbit_true type 7) in C; [congruence|lia]. }
    lia.
Qed.

(* ================================================================== *)
(** ** The key count *)







Lemma parseOsuFile_keyCount text pm :
  parseOsuFile text = Return pm ->
  keyCount pm = orDefault (circleSize (metadataOf text)) 4
  /\ parseHitObjects text (keyCount pm) = Return (hitObjects pm).
Proof.
  intros H. apply parseOsuFile_inv in H as (md & Hmd & Hobjs & Hpm).
  rewrite parseMetadata_eq in Hmd. injection Hmd as <-.
  rewrite Hpm. simpl. rewrite Hpm in Hobjs. simpl in Hobjs. auto.
Qed.

Lemma cut_prefix h s :
  (exists post, cut h s = Some ([], post)) <-> ciPrefix h s = true.
Proof.
  split.
  - intros (post & H). destruct s as [|a s]; simpl in H;
      destruct (ciPrefix h _); try reflexivity; try discriminate.
    destruct (cut h s) as [[pre p]|]; discriminate.
  - intros H. destruct s; simpl; rewrite H; eauto.
Qed.

(** When [s.split(/\[Name\]/i)[1]] is the empty text. *)
Lemma afterHeader_empty header text :
  lit header <> [] ->
  (afterHeader header text = Some [] <->
   exists pre post, cut (lit header) text = Some (pre, post)
                    /\ (post = [] \/ ciPrefix (lit header) post = true)).
Proof.
  intros Hne. rewrite (afterHeader_cut _ _ Hne).
  destruct (cut (lit header) text) as [[pre post]|]; split.
  - intros [= H]. exists pre, post. split; [reflexivity|].
    destruct (cut (lit header) post) as [[pre' post']|] eqn:Hc.
    + subst pre'. right. apply cut_prefix. eauto.
    + now left.
  - intros (pre' & post' & [= <- <-] & [->|H]).
    + destruct (lit header); [contradiction|reflexivity].
    + apply cut_prefix in H as (p & ->). reflexivity.
  - discriminate.
  - intros (pre & post & H & _). discriminate.
Qed.

(* ================================================================== *)
(** ** organizeNotesByColumn with any key count *)



Lemma placeNotes_thrown keyCount e objs :
  fold_left (fun columns obj =>
               bind columns (fun columns => placeNote keyCount columns obj))
            objs (Throw e) = Throw e.
Proof. induction objs as [|obj objs IH]; [reflexivity|exact IH]. Qed.






(* ================================================================== *)
(** ** What a section depends on *)

Lemma cut_before h0 c s mid tail :
  cut (c :: h0) s = Some (mid, tail) -> cut (c :: h0) mid = None.
Proof.
  intros H. destruct (cut (c :: h0) mid) as [[p q]|] eqn:E; [|reflexivity].
  destruct (cut_some _ _ _ _ H) as (h' & Hs & Hh' & Hfirst).
  destruct (cut_some _ _ _ _ E) as (h'' & Hm & Hh'' & _).
  assert (Hs' : s = p ++ h'' ++ q ++ h' ++ tail).
  { rewrite Hs, Hm, <- !app_assoc. reflexivity. }
  pose proof (Hfirst _ _ _ Hs' Hh'') as Hle.
  apply (f_equal (@length char)) in Hh''. rewrite !length_map in Hh''.
  rewrite Hm, !length_app, Hh'' in Hle. simpl in Hle. lia.
Qed.

Lemma cut_at_header h s : cut h (h ++ s) = Some ([], s).
Proof.
  assert (Hp : ciPrefix h (h ++ s) = true) by now apply ciPrefix_app.
  assert (Hs : skipn (length h) (h ++ s) = s).
  { rewrite skipn_app, skipn_all, Nat.sub_diag. reflexivity. }
  destruct (h ++ s) eqn:E; simpl; rewrite Hp; simpl in Hs; now rewrite ?Hs.
Qed.

Lemma afterHeader_between header text pre post :
  lit header <> [] ->
  cut (lit header) text = Some (pre, post) ->
  afterHeader header text = Some (between (lit header) post)
  /\ afterHeader header (lit header ++ between (lit header) post)
     = Some (between (lit header) post).
Proof.
  intros Hne Hc. rewrite !(afterHeader_cut _ _ Hne), Hc, cut_at_header.
  split; [reflexivity|]. f_equal. unfold between at 1.
  destruct (lit header) as [|c h0] eqn:Eh; [contradiction|].
  unfold between. destruct (cut (c :: h0) post) as [[mid tail]|] eqn:E.
  - now rewrite (cut_before _ _ _ _ _ E).
  - now rewrite E.
Qed.

(* ================================================================== *)
(** ** The number of notes in the buckets *)

Lemma concat_update_perm {A} (a : A) : forall l i b,
  nth_error l i = Some b ->
  Permutation (concat (update i (b ++ [a]) l)) (a :: concat l).
Proof.
  induction l as [|b0 l IH]; intros [|i] b H; simpl in *; try discriminate.
  - injection H as ->. rewrite <- app_assoc. simpl.
    symmetry. apply Permutation_middle.
  - rewrite (IH _ _ H). symmetry. apply Permutation_middle.
Qed.

Lemma placeNote_perm keyCount columns obj columns' :
  placeNote keyCount columns obj = Return columns' ->
  Permutation (concat columns')
              ((if inRange keyCount obj then [obj] else []) ++ concat columns).
Proof.
  unfold placeNote, inRange.
  destruct ((0 <=? columnOrZero obj)%Z && _)%bool.
  - destruct (nth_error columns (Z.to_nat (columnOrZero obj))) as [b|] eqn:E;
      [|discriminate].
    intros [= <-]. apply (concat_update_perm _ _ _ _ E).
  - intros [= <-]. reflexivity.
Qed.

Lemma placeNotes_perm keyCount objs : forall columns columns',
  fold_left (fun columns obj =>
               bind columns (fun columns => placeNote keyCount columns obj))
            objs (Return columns) = Return columns' ->
  Permutation (concat columns')
              (filter (inRange keyCount) objs ++ concat columns).
Proof.
  induction objs as [|obj objs IH]; intros columns columns'; simpl.
  - intros [= <-]. reflexivity.
  - destruct (placeNote keyCount columns obj) as [c1|e] eqn:E.
    + intros H. rewrite (IH _ _ H), (placeNote_perm _ _ _ _ E).
      destruct (inRange keyCount obj); simpl; [|reflexivity].
      symmetry. apply Permutation_middle.
    + rewrite placeNotes_thrown. discriminate.
Qed.

Lemma concat_repeat_nil {A} n : concat (repeat (@nil A) n) = [].
Proof. induction n; [reflexivity|exact IHn]. Qed.

(* ================================================================== *)
(** ** Well-formed lines *)









(** A class run at the end of the text, or before a character out of the
    class, captured by group [n]. *)
Lemma first_group_run ic n p w t i cs :
  headIs p t = false -> w <> [] -> forallb p w = true ->
  first ic (Grp n (Plus (Cls p))) (MState i (w ++ t) cs)
  = Some (MState (i + length w) t ((n, w) :: cs)).
Proof.
  intros Ht Hne Hw.
  rewrite (first_grp ic n _ _ _ (first_plus_cls ic p cs t w i Ht Hne Hw)).
  cbn [pos rest caps]. now rewrite (firstn_consumed w _ i (i + length w) eq_refl).
Qed.




(* ================================================================== *)
(** ** Reading a field of a section *)

(** A pattern that starts with a key is first tried, with success, at the
    first occurrence of the key if the rest of the pattern matches
    there. *)
Lemma exec_from_at_cut key r : forall s i gap post m,
  cut key s = Some (gap, post) ->
  first true r (MState (i + length gap + length key) post []) = Some m ->
  exec_from true (Seq (lits key) r) i s = Some m.
Proof.
  assert (Hit : forall s i m,
             ciPrefix key s = true ->
             first true r (MState (i + 0 + length key)
                                  (skipn (length key) s) []) = Some m ->
             hd_error (run true (Seq (lits key) r) (MState i s [])) = Some m).
  { intros s i m Hp Hf. rewrite run_seq, run_lits. cbn [rest pos caps].
    rewrite Hp. cbn [flat_map]. rewrite app_nil_r.
    rewrite Nat.add_0_r in Hf. exact Hf. }
  assert (Miss : forall s i, ciPrefix key s = false ->
                             run true (Seq (lits key) r) (MState i s []) = []).
  { intros s i Hp. rewrite run_seq, run_lits. cbn [rest]. now rewrite Hp. }
  induction s as [|a s IH]; intros i gap post m Hc Hf; cbn [cut] in Hc.
  - destruct (ciPrefix key []) eqn:Hp; [|discriminate].
    injection Hc as <- <-. cbn [length] in Hf.
    pose proof (Hit _ _ _ Hp Hf) as H. cbn [exec_from].
    destruct (run true _ _) as [|m0 l]; [discriminate|]. now injection H as ->.
  - cbn [exec_from]. destruct (ciPrefix key (a :: s)) eqn:Hp.
    + injection Hc as <- <-. cbn [length] in Hf.
      pose proof (Hit _ _ _ Hp Hf) as H.
      destruct (run true _ _) as [|m0 l]; [discriminate|]. now injection H as ->.
    + rewrite (Miss _ _ Hp).
      destruct (cut key s) as [[gap' post']|] eqn:Hc'; [|discriminate].
      injection Hc as Hg Hq. subst gap post. apply (IH _ gap' post' m eq_refl).
      cbn [length] in Hf.
      now replace (S i + length gap') with (i + S (length gap')) by lia.
Qed.

Lemma headIs_app p (v t : str) : v <> [] -> headIs p (v ++ t) = headIs p v.
Proof. destruct v; [contradiction|reflexivity]. Qed.

Lemma first_star_run ic p w t i cs :
  headIs p t = false -> forallb p w = true ->
  first ic (Star true (Cls p)) (MState i (w ++ t) cs)
  = Some (MState (i + length w) t cs).
Proof.
  intros Ht Hw. unfold first. rewrite run_star. cbn [rest].
  apply first_star_cls; [exact Ht|exact Hw|lia].
Qed.

(** The value found after the first occurrence of a key. *)
Lemma fieldValue_at_cut key body gap ws v t :
  cut (lit key) body = Some (gap, ws ++ v ++ t) ->
  forallb isWhiteSpace ws = true ->
  v <> [] -> forallb isDot v = true -> headIs isWhiteSpace v = false ->
  headIs isDot t = false ->
  fieldValue key body = Some v.
Proof.
  intros Hc Hws Hne Hd Hv Ht. unfold fieldValue, captureOf, exec, fieldRegex.
  erewrite exec_from_at_cut; [| exact Hc |].
  2:{ eapply first_seq.
      - apply first_star_run; [|exact Hws]. now rewrite headIs_app.
      - apply first_group_run; [exact Ht|exact Hne|exact Hd]. }
  reflexivity.
Qed.

Lemma takeWhile_app {A} (p : A -> bool) l l' :
  forallb p l = true -> takeWhile p (l ++ l') = l ++ takeWhile p l'.
Proof.
  induction l as [|a l IH]; [reflexivity|]. simpl.
  destruct (p a); [|discriminate]. simpl. intros H. now rewrite IH.
Qed.

(* ================================================================== *)
(** ** Well-formed timing lines *)









(* ================================================================== *)
(** ** Headers in another case, numeric metadata *)

Lemma cut_at_variant h h' s :
  List.map canon h' = List.map canon h -> cut h (h' ++ s) = Some ([], s).
Proof.
  intros Hh.
  assert (Hp : ciPrefix h (h' ++ s) = true) by now apply ciPrefix_app.
  assert (Hl : length h' = length h).
  { apply (f_equal (@length char)) in Hh. now rewrite !length_map in Hh. }
  assert (Hs : skipn (length h) (h' ++ s) = s).
  { rewrite <- Hl, skipn_app, skipn_all, Nat.sub_diag. reflexivity. }
  destruct (h' ++ s) eqn:E; simpl; rewrite Hp; simpl in Hs; now rewrite ?Hs.
Qed.

Lemma afterHeader_variant header h' s :
  lit header <> [] -> sameHeader header h' ->
  afterHeader header (h' ++ s) = afterHeader header (lit header ++ s).
Proof.
  intros Hne Hh. rewrite !(afterHeader_cut _ _ Hne).
  now rewrite (cut_at_variant _ _ _ Hh), cut_at_header.
Qed.



(* ================================================================== *)
(** ** The examples of the specification *)

Example long_note_example :
  exists obj,
    parseHitObjectLine 4 (lit "192,192,1000,128,0,5000:0:0:0:L1:1") = Some obj
    /\ isLongNote obj = Some true /\ endTime obj = Some 5000%Z.
Proof. eexists. split; [vm_compute; reflexivity|]. split; reflexivity. Qed.

Example plain_note_example :
  exists obj,
    parseHitObjectLine 4 (lit "64,192,2000,1,0,5000:0:0:0:L1:1,more,fields")
    = Some obj
    /\ isLongNote obj = Some false /\ endTime obj = Some 2000%Z.
Proof. eexists. split; [vm_compute; reflexivity|]. split; reflexivity. Qed.

Example empty_sixth_field_example :
  exists obj,
    parseHitObjectLine 4 (lit "64,192,2000,128,0,,5000:0:0:0:x") = Some obj
    /\ objectParams obj = None
    /\ hitSample obj = Some (lit ",5000:0:0:0:x")
    /\ endTime obj = Some 2000%Z.
Proof. eexists. split; [vm_compute; reflexivity|]. repeat split. Qed.

Example malformed_lines_example :
  parseHitObjects (lit "[HitObjects]
1,2,3,4
x,2,3,4,5
64,192,2000,1,0,
// 1,2,3,4,5
[1,2,3,4,5
  511,0,7,1,0  ") 4
  = Return [mkHitObject 511 0 7 1 0 None None
                        (Some 3%Z) (Some false) (Some 7%Z)].
Proof. vm_compute. reflexivity. Qed.

Example missing_hit_objects_example :
  parseOsuFile (lit "[Metadata]
Title: x") = Throw missingHitObjects.
Proof. vm_compute. reflexivity. Qed.

Example empty_hit_objects_example :
  exists pm,
    parseOsuFile (lit "[hitobjects]
") = Return pm
    /\ hitObjects pm = [] /\ timingPoints pm = []
    /\ duration pm = 0%Z /\ keyCount pm = 4%Q.
Proof. eexists. split; [vm_compute; reflexivity|]. repeat split. Qed.

Example malformed_number_example :
  parseMetadata (lit "[General]
AudioFilename:  a.mp3
Mode: x
[Difficulty]
CircleSize:.")
  = Return (mkMapMetadata None None None None
                          (Some (lit "a.mp3")) None (Some NaN)).
Proof. vm_compute. reflexivity. Qed.

Example columns_example :
  organizeNotesByColumn
    [inColumn 0; inColumn 3; inColumn 5; inColumn (-1); inColumn 2] 4
  = Return [[inColumn 0]; []; [inColumn 2]; [inColumn 3]].
Proof. vm_compute. reflexivity. Qed.

(** A key count that is not an integer leaves the last column without a
    bucket, and placing a note there fails. *)
Example fractional_key_count_example :
  organizeNotesByColumn [inColumn 4] (9 # 2) = Throw TypeError.
Proof. vm_compute. reflexivity. Qed.

(* ================================================================== *)
(** ** Properties of the specification *)

(** C1, at the input where the code departs from it: the text
    ["[HitObjects]"] contains the header, yet [parseOsuFile] throws the
    missing-section error, because [if (!hitObjectSection)] takes the empty
    text after the header for a missing one.  (Lemmas
    [missing_header_throws], [missing_timing_section] and
    [parseOsuFile_throw] cover the rest of the claim.) *)
Theorem empty_section_reported_missing :
  occursCI "[HitObjects]" (lit "[HitObjects]")
  /\ parseOsuFile (lit "[HitObjects]") = Throw missingHitObjects.
Proof.
  split; [|vm_compute; reflexivity].
  exists [], (lit "[HitObjects]"), []. split; reflexivity.
Qed.

(** C2, at the input where the code departs from it: a long note
    ([type = 128]) whose 6th field ["0:0:0:0:0"] matches the sub-record
    pattern with decoded integer 0 gets [endTime = time = 1000], not the
    decoded 0, because [if (!obj.endTime)] takes the decoded 0 for an unset
    value. *)
Theorem zero_release_time_overwritten :
  exists obj,
    parseHitObjectLine 4 (lit "0,0,1000,128,0,0:0:0:0:0") = Some obj
    /\ isLongNote obj = Some true
    /\ objectParams obj = Some (lit "0:0:0:0:0")
    /\ releaseTime (objectParams obj) = Some 0%Z
    /\ time obj = 1000%Z
    /\ endTime obj = Some 1000%Z.
Proof.
  eexists. split; [vm_compute; reflexivity|]. repeat split.
Qed.

(** C3 as stated fails: the long note at 6000 whose 6th field decodes the
    release time 100 keeps [endTime = 100], before its onset. *)
Lemma release_before_onset_kept :
  exists obj,
    parseHitObjects (lit "[HitObjects]
0,0,6000,128,0,100:0:0:0:0") 4 = Return [obj]
    /\ ~ releaseOrdered obj.
Proof.
  eexists. split; [vm_compute; reflexivity|].
  intros [H _]. destruct (H 100%Z) as (t & Ht & Hle); [reflexivity|].
  simpl in Ht, Hle. injection Ht as <-. lia.
Qed.

(** C3, amended: for every hit object the parser returns, [endTime >= time]
    holds whenever a release time is decodable from the 6th field and that
    release time is itself at least [time] (the parser stores the decoded
    value without comparing it with the onset), and [endTime = time]
    whenever no release time is decodable. *)
Theorem endTime_not_before_time text keyCount objs obj :
  parseHitObjects text keyCount = Return objs -> In obj objs ->
  (forall e, releaseTime (objectParams obj) = Some e -> (time obj <= e)%Z ->
             exists t, endTime obj = Some t /\ (time obj <= t)%Z)
  /\ (releaseTime (objectParams obj) = None -> endTime obj = Some (time obj)).
Proof.
  intros H Hin.
  destruct (hit_object_derived _ _ _ _ H Hin) as (_ & _ & _ & _ & _ & He).
  split.
  - intros e Hr Hle. rewrite Hr in He. eexists. split; [exact He|].
    destruct (Z.testbit (type obj) 7); [|lia].
    destruct (Z.eqb e 0); lia.
  - intros Hr. rewrite Hr in He. rewrite He.
    now destruct (Z.testbit (type obj) 7).
Qed.

Lemma endTime_not_before_time_witness :
  exists objs obj,
    parseHitObjects sampleChart 4 = Return objs /\ In obj objs
    /\ releaseTime (objectParams obj) = Some 5000%Z
    /\ exists t, endTime obj = Some t /\ (time obj <= t)%Z.
Proof.
  eexists. eexists. split; [vm_compute; reflexivity|].
  split; [left; reflexivity|]. split; [reflexivity|].
  refine (proj1 (endTime_not_before_time sampleChart 4 _ _ _ _) 5000%Z _ _).
  - vm_compute; reflexivity.
  - left; reflexivity.
  - reflexivity.
  - vm_compute. discriminate.
Defined.





(** C6: whatever the order of the lines in their sections, the returned
    hit objects and timing points are non-decreasing in [time]. *)
Theorem sequences_sorted_by_time text pm :
  parseOsuFile text = Return pm ->
  StronglySorted (fun a b => (time a <= time b)%Z) (hitObjects pm)
  /\ StronglySorted (fun a b => (tp_time a <= tp_time b)%Q) (timingPoints pm).
Proof.
  intros H. apply parseOsuFile_inv in H as (md & _ & Hobjs & Hpm). split.
  - eapply parseHitObjects_sorted, Hobjs.
  - rewrite Hpm. simpl. apply parseTimingPoints_sorted.
Qed.

Lemma sequences_sorted_by_time_witness :
  parseOsuFile sampleChart = Return sampleMap
  /\ StronglySorted (fun a b => (time a <= time b)%Z) (hitObjects sampleMap).
Proof.
  split; [vm_compute; reflexivity|].
  refine (proj1 (sequences_sorted_by_time sampleChart sampleMap _)).
  vm_compute; reflexivity.
Defined.





(* ================================================================== *)
(** ** Further properties of the code *)

(** X1: every hit object the parser returns has non-negative [x], [y],
    [time], [type] and [hitSound], has its three derived fields set with a
    non-negative [endTime], and keeps a 6th field only if it is non-empty
    and free of commas, a 7th only if it is non-empty and on one line. *)
Theorem parsed_hit_object_wellformed text keyCount objs obj :
  parseHitObjects text keyCount = Return objs -> In obj objs ->
  (0 <= x obj)%Z /\ (0 <= y obj)%Z /\ (0 <= time obj)%Z
  /\ (0 <= type obj)%Z /\ (0 <= hitSound obj)%Z
  /\ (exists c l e, column obj = Some c /\ isLongNote obj = Some l
                    /\ endTime obj = Some e /\ (0 <= e)%Z)
  /\ (forall w, objectParams obj = Some w ->
                w <> [] /\ forallb notComma w = true)
  /\ (forall w, hitSample obj = Some w ->
                w <> [] /\ forallb isDot w = true).
Proof.
  intros H Hin.
  destruct (hit_object_derived _ _ _ _ H Hin) as (Hx & Ht & Hty & Hc & Hl & He).
  destruct (parsed_hit_object _ _ _ _ H Hin) as (line & Hline).
  destruct (hit_line_fields _ _ _ Hline)
    as (m & Hm & _ & Hy & _ & _ & Hhs & Hp & Hs).
  assert (B6 : forall body, In (6, body) (groups hitObjectRegex) ->
                            body = Plus (Cls notComma)) by body_of.
  assert (B7 : forall body, In (7, body) (groups hitObjectRegex) ->
                            body = Plus (Cls isDot)) by body_of.
  split; [exact Hx|]. split.
  { apply (digits_group_nonneg _ _ _ 2 _ Hm eq_refl); [body_of|exact Hy]. }
  split; [exact Ht|]. split; [exact Hty|]. split.
  { apply (digits_group_nonneg _ _ _ 5 _ Hm eq_refl); [body_of|exact Hhs]. }
  split.
  { do 3 eexists. repeat split; [exact Hc|exact Hl|exact He|].
    destruct (Z.testbit (type obj) 7); [|exact Ht].
    destruct (releaseTime (objectParams obj)) as [e|] eqn:Hr; [|exact Ht].
    apply releaseTime_nonneg in Hr. destruct (Z.eqb e 0); assumption. }
  split.
  - intros w Hw. rewrite Hp in Hw.
    destruct (exec_group_word _ _ _ _ _ _ Hm Hw) as (body & Hi & Hb).
    apply B6 in Hi as ->. now apply matches_plus_cls in Hb.
  - intros w Hw. rewrite Hs in Hw.
    destruct (exec_group_word _ _ _ _ _ _ Hm Hw) as (body & Hi & Hb).
    apply B7 in Hi as ->. now apply matches_plus_cls in Hb.
Qed.

Lemma parsed_hit_object_wellformed_witness :
  parseOsuFile sampleChart = Return sampleMap
  /\ forall obj, In obj (hitObjects sampleMap) -> (0 <= y obj)%Z.
Proof.
  split; [vm_compute; reflexivity|]. intros obj Hin.
  refine (proj1 (proj2 (parsed_hit_object_wellformed
                          sampleChart 4 (hitObjects sampleMap) obj _ Hin))).
  vm_compute; reflexivity.
Defined.



(** X3: [isLongNote] is bit 7 of [type] and nothing else: it is true
    exactly when [type mod 256 >= 128], whatever the other bits and however
    large [type] is (the 32-bit wrap of [&] does not reach bit 7). *)
Theorem long_note_is_bit_seven text keyCount objs obj :
  parseHitObjects text keyCount = Return objs -> In obj objs ->
  isLongNote obj = Some (128 <=? type obj mod 256)%Z.
Proof.
  intros H Hin.
  destruct (hit_object_derived _ _ _ _ H Hin) as (_ & _ & _ & _ & Hl & _).
  now rewrite <- testbit7_mod.
Qed.

Lemma long_note_is_bit_seven_witness :
  parseOsuFile sampleChart = Return sampleMap
  /\ forall obj, In obj (hitObjects sampleMap) ->
                 isLongNote obj = Some (128 <=? type obj mod 256)%Z.
Proof.
  split; [vm_compute; reflexivity|]. intros obj Hin.
  refine (long_note_is_bit_seven sampleChart 4 (hitObjects sampleMap) obj _ Hin).
  vm_compute; reflexivity.
Defined.

(** X4: the parser returns one hit object for each kept line that matches
    the line pattern and nothing else: a line that does not match is
    dropped without effect on the others, and the result is a permutation
    of the objects in line order. *)
Theorem one_object_per_matching_line text keyCount objs :
  parseHitObjects text keyCount = Return objs ->
  exists section,
    afterHeader "[HitObjects]" text = Some section
    /\ Permutation objs (collect (parseHitObjectLine keyCount)
                                 (sectionLines section))
    /\ length objs
       = length (filter (fun line =>
                           match exec false hitObjectRegex line with
                           | Some _ => true
                           | None => false
                           end) (sectionLines section)).
Proof.
  intros H. apply parseHitObjects_inv in H as (section & Ha & _ & ->).
  exists section. split; [exact Ha|]. split; [apply sort_perm|].
  rewrite (Permutation_length (sort_perm hitLe _)), length_collect.
  f_equal. apply filter_ext. intros line. apply hit_line_matches.
Qed.

Lemma one_object_per_matching_line_witness :
  exists section,
    afterHeader "[HitObjects]" sampleChart = Some section
    /\ length (hitObjects sampleMap)
       = length (filter (fun line =>
                           match exec false hitObjectRegex line with
                           | Some _ => true
                           | None => false
                           end) (sectionLines section)).
Proof.
  destruct (one_object_per_matching_line sampleChart 4 (hitObjects sampleMap))
    as (section & Ha & _ & Hl); [vm_compute; reflexivity|].
  exists section. split; assumption.
Defined.

(** X5: the sort is stable: hit objects with the same [time] are returned
    in the order of their lines. *)
Theorem equal_times_keep_line_order text keyCount objs :
  parseHitObjects text keyCount = Return objs ->
  exists section,
    afterHeader "[HitObjects]" text = Some section
    /\ forall t,
         filter (fun obj => Z.eqb (time obj) t) objs
         = filter (fun obj => Z.eqb (time obj) t)
                  (collect (parseHitObjectLine keyCount) (sectionLines section)).
Proof.
  intros H. apply parseHitObjects_inv in H as (section & Ha & _ & ->).
  exists section. split; [exact Ha|]. intros t. apply filter_sort.
  intros a b Ea Eb. apply Z.eqb_eq in Ea, Eb. unfold hitLe.
  apply Z.leb_le. lia.
Qed.

Lemma equal_times_keep_line_order_witness :
  exists section,
    afterHeader "[HitObjects]" tiedChart = Some section
    /\ filter (fun obj => Z.eqb (time obj) 1000) tiedObjects
       = filter (fun obj => Z.eqb (time obj) 1000)
                (collect (parseHitObjectLine 4) (sectionLines section)).
Proof.
  destruct (equal_times_keep_line_order tiedChart 4 tiedObjects)
    as (section & Ha & Hf); [vm_compute; reflexivity|].
  exists section. split; [exact Ha|apply Hf].
Defined.

(** X6: every timing point the parser returns has non-negative [meter],
    [sampleSet], [sampleIndex], [volume] and [effects]. *)
Theorem timing_point_fields_nonneg text tp :
  In tp (parseTimingPoints text) ->
  (0 <= meter tp)%Z /\ (0 <= sampleSet tp)%Z /\ (0 <= sampleIndex tp)%Z
  /\ (0 <= volume tp)%Z /\ (0 <= effects tp)%Z.
Proof.
  intros Hin. apply parsed_timing_point in Hin as (line & Hl).
  destruct (timing_line_fields _ _ Hl)
    as (m & Hm & _ & _ & H3 & H4 & H5 & H6 & _ & H8).
  repeat split.
  - apply (digits_group_nonneg _ _ _ 3 _ Hm eq_refl); [body_of|exact H3].
  - apply (digits_group_nonneg _ _ _ 4 _ Hm eq_refl); [body_of|exact H4].
  - apply (digits_group_nonneg _ _ _ 5 _ Hm eq_refl); [body_of|exact H5].
  - apply (digits_group_nonneg _ _ _ 6 _ Hm eq_refl); [body_of|exact H6].
  - apply (digits_group_nonneg _ _ _ 8 _ Hm eq_refl); [body_of|exact H8].
Qed.

Lemma timing_point_fields_nonneg_witness :
  exists tp, In tp (parseTimingPoints sampleChart) /\ (0 <= meter tp)%Z.
Proof.
  eexists. split; [vm_compute; left; reflexivity|].
  refine (proj1 (timing_point_fields_nonneg sampleChart _ _)).
  vm_compute; left; reflexivity.
Defined.

(** X7: [parseOsuFile] throws nothing but the missing-section error, and
    throws it exactly when the text has no [[HitObjects]] header (compared
    without case) or when the first such header is followed by the end of
    the text or at once by another [[HitObjects]] header. *)
Theorem only_missing_section_thrown text e :
  parseOsuFile text = Throw e <->
  e = missingHitObjects
  /\ match cut (lit "[HitObjects]") text with
     | None => True
     | Some (_, post) =>
         post = [] \/ ciPrefix (lit "[HitObjects]") post = true
     end.
Proof.
  rewrite parseOsuFile_throw.
  assert (Hne : lit "[HitObjects]" <> []) by discriminate.
  rewrite (afterHeader_empty _ _ Hne), (afterHeader_cut _ _ Hne).
  destruct (cut (lit "[HitObjects]") text) as [[pre post]|]; split.
  - intros [-> [H|(pre' & post' & [= <- <-] & H)]]; [discriminate|auto].
  - intros [-> H]. split; [reflexivity|right; eauto].
  - intros [-> _]. auto.
  - intros [-> _]. auto.
Qed.




(** X10: a section is the text between the first occurrence of its header
    and the next occurrence of the same header (or the end): what precedes
    the first [[HitObjects]] header and what follows a second one has no
    effect on the hit objects, and likewise for [[TimingPoints]]; other
    headers do not end these sections. *)
Theorem only_own_header_bounds_section text keyCount :
  (forall pre post,
      cut (lit "[HitObjects]") text = Some (pre, post) ->
      parseHitObjects text keyCount
      = parseHitObjects
          (lit "[HitObjects]" ++ between (lit "[HitObjects]") post) keyCount)
  /\ (forall pre post,
        cut (lit "[TimingPoints]") text = Some (pre, post) ->
        parseTimingPoints text
        = parseTimingPoints
            (lit "[TimingPoints]" ++ between (lit "[TimingPoints]") post)).
Proof.
  split; intros pre post Hc.
  - destruct (afterHeader_between "[HitObjects]" text pre post) as (H1 & H2);
      [discriminate|exact Hc|].
    unfold parseHitObjects. now rewrite H1, H2.
  - destruct (afterHeader_between "[TimingPoints]" text pre post) as (H1 & H2);
      [discriminate|exact Hc|].
    unfold parseTimingPoints. now rewrite H1, H2.
Qed.

Lemma only_own_header_bounds_section_witness :
  exists pre post,
    cut (lit "[HitObjects]") sampleChart = Some (pre, post)
    /\ parseHitObjects sampleChart 4
       = parseHitObjects
           (lit "[HitObjects]" ++ between (lit "[HitObjects]") post) 4.
Proof.
  eexists. eexists. split; [vm_compute; reflexivity|].
  eapply (proj1 (only_own_header_bounds_section sampleChart 4)).
  vm_compute; reflexivity.
Defined.

(** X11: when [organizeNotesByColumn] returns, its buckets taken together
    are a permutation of the notes of the input that pass the range test
    [0 <= col < keyCount]: no note is duplicated, none in range is lost and
    nothing else is added. *)
Theorem organize_partitions_in_range objs keyCount columns :
  organizeNotesByColumn objs keyCount = Return columns ->
  Permutation (concat columns) (filter (inRange keyCount) objs)
  /\ length (concat columns) = length (filter (inRange keyCount) objs).
Proof.
  unfold organizeNotesByColumn. intros H.
  assert (P : Permutation (concat columns) (filter (inRange keyCount) objs)).
  { rewrite (placeNotes_perm _ _ _ _ H), concat_repeat_nil.
    now rewrite app_nil_r. }
  split; [exact P|]. now apply Permutation_length.
Qed.

Lemma organize_partitions_in_range_witness :
  organizeNotesByColumn
    [inColumn 0; inColumn 3; inColumn 5; inColumn (-1); inColumn 2] 4
  = Return [[inColumn 0]; []; [inColumn 2]; [inColumn 3]]
  /\ length (concat [[inColumn 0]; []; [inColumn 2]; [inColumn 3]])
     = length (filter (inRange 4)
                 [inColumn 0; inColumn 3; inColumn 5; inColumn (-1);
                  inColumn 2]).
Proof.
  split; [vm_compute; reflexivity|].
  apply (organize_partitions_in_range
           [inColumn 0; inColumn 3; inColumn 5; inColumn (-1); inColumn 2] 4).
  vm_compute; reflexivity.
Defined.



(** X13: how a text field is read: the value is looked up at the first
    occurrence of the key (compared without case) in the section; it
    starts after any white space that follows the key, line breaks
    included, runs to the end of that line, and is trimmed. *)
Theorem field_read_at_first_key header key text body gap ws v t :
  sectionBody header text = Some body ->
  cut (lit key) body = Some (gap, ws ++ v ++ t) ->
  forallb isWhiteSpace ws = true ->
  v <> [] -> forallb isDot v = true -> headIs isWhiteSpace v = false ->
  headIs isDot t = false ->
  trimmedField header key text = Some (trim v).
Proof.
  intros Hb Hc Hws Hne Hd Hv Ht. unfold trimmedField, inSection.
  rewrite Hb, (fieldValue_at_cut key body gap ws v t); auto.
Qed.

Lemma field_read_at_first_key_witness :
  title (metadataOf (lit "[Metadata]
Title:
  Artist: foo
")) = Some (lit "Artist: foo").
Proof.
  apply (field_read_at_first_key "[Metadata]" "Title:" _
           (lit "
Title:
  Artist: foo
") [10%N] [10%N; 32%N; 32%N] (lit "Artist: foo") [10%N]);
    try reflexivity. discriminate.
Defined.

(** X14: a value is cut at the first [[]: the section pattern ends the
    section at the next [[] wherever it stands, so a key followed on its
    line by [v[...]] yields [v] trimmed (["Title:Song [TV Size]"] gives
    ["Song"]). *)
Theorem value_cut_at_bracket header key v more :
  forallb notBracket (lit key) = true ->
  v <> [] -> forallb isDot v = true -> forallb notBracket v = true ->
  headIs isWhiteSpace v = false ->
  trimmedField header key (lit header ++ lit key ++ v ++ 91%N :: more)
  = Some (trim v).
Proof.
  intros Hk Hne Hd Hb Hv. unfold trimmedField, inSection, sectionBody.
  rewrite cut_at_header.
  rewrite takeWhile_app by exact Hk. rewrite takeWhile_app by exact Hb.
  cbn [takeWhile notBracket N.eqb Pos.eqb negb]. rewrite app_nil_r.
  rewrite (fieldValue_at_cut key (lit key ++ v) [] [] v []); auto.
  rewrite app_nil_r. apply cut_at_header.
Qed.

Lemma value_cut_at_bracket_witness :
  trimmedField "[Metadata]" "Title:"
    (lit "[Metadata]" ++ lit "Title:" ++ lit "Song " ++ 91%N :: lit "TV Size]
Artist:x")
  = Some (lit "Song").
Proof.
  apply (value_cut_at_bracket "[Metadata]" "Title:" (lit "Song ")
           (lit "TV Size]
Artist:x")); try reflexivity. discriminate.
Defined.



(** X16: without a [[TimingPoints]] header (compared without case) the
    parser returns no timing point. *)
Theorem no_timing_header_no_points text :
  ~ occursCI "[TimingPoints]" text -> parseTimingPoints text = [].
Proof.
  intros H. unfold parseTimingPoints.
  apply afterHeader_none in H; [|discriminate]. now rewrite H.
Qed.

Lemma no_timing_header_no_points_witness :
  cut (lit "[TimingPoints]") tiedChart = None
  /\ parseTimingPoints tiedChart = [].
Proof.
  split; [vm_compute; reflexivity|].
  apply no_timing_header_no_points. apply sectionBody_none.
  vm_compute; reflexivity.
Defined.



(** X18: the case of the letters of a header does not matter: a text that
    starts with any case variant of [[HitObjects]], or of [[TimingPoints]],
    is parsed as with the header written as in the source. *)
Theorem header_case_ignored h' s keyCount :
  (sameHeader "[HitObjects]" h' ->
   parseHitObjects (h' ++ s) keyCount
   = parseHitObjects (lit "[HitObjects]" ++ s) keyCount)
  /\ (sameHeader "[TimingPoints]" h' ->
      parseTimingPoints (h' ++ s) = parseTimingPoints (lit "[TimingPoints]" ++ s)).
Proof.
  split; intros Hh.
  - unfold parseHitObjects.
    now rewrite (afterHeader_variant "[HitObjects]" h' s ltac:(discriminate) Hh).
  - unfold parseTimingPoints.
    now rewrite (afterHeader_variant "[TimingPoints]" h' s ltac:(discriminate) Hh).
Qed.

Lemma header_case_ignored_witness :
  sameHeader "[HitObjects]" (lit "[hitOBJECTS]")
  /\ parseHitObjects (lit "[hitOBJECTS]" ++ lit "
64,0,5,1,0") 4
     = parseHitObjects (lit "[HitObjects]" ++ lit "
64,0,5,1,0") 4.
Proof.
  split; [reflexivity|].
  apply (proj1 (header_case_ignored (lit "[hitOBJECTS]") (lit "
64,0,5,1,0") 4)). reflexivity.
Defined.

(** X19: in every returned map the long notes are at most as many as the
    notes, and the duration is not negative. *)
Theorem summary_bounds text pm :
  parseOsuFile text = Return pm ->
  longNoteCount pm <= noteCount pm /\ (0 <= duration pm)%Z.
Proof.
  intros H. destruct (parseOsuFile_keyCount _ _ H) as (_ & Hobjs).
  apply parseOsuFile_inv in H as (md & _ & _ & Hpm).
  assert (Hnn : forall obj, In obj (hitObjects pm) -> (0 <= endOrTime obj)%Z).
  { intros obj Hin.
    pose proof (endOrTime_parsed _ _ _ _ Hobjs Hin) as He.
    destruct (hit_object_derived _ _ _ _ Hobjs Hin)
      as (_ & Ht & _ & _ & _ & He').
    rewrite He in He'.
    remember (Z.testbit (type obj) 7) as b eqn:Eb. clear Eb.
    remember (releaseTime (objectParams obj)) as r eqn:Hr. symmetry in Hr.
    injection He' as He'. rewrite He'.
    destruct b; [|exact Ht]. destruct r as [e|]; [|exact Ht].
    apply releaseTime_nonneg in Hr. destruct (Z.eqb e 0); assumption. }
  clear Hobjs. rewrite Hpm. simpl. split; [apply filter_length_le|].
  destruct (hitObjects pm) as [|obj objs]; [simpl; lia|].
  assert (Hm : List.map endOrTime (obj :: objs) <> []) by discriminate.
  apply maxOrZero_spec in Hm as [_ Hmax].
  specialize (Hmax (endOrTime obj) (or_introl eq_refl)).
  specialize (Hnn obj (or_introl eq_refl)). lia.
Qed.

Lemma summary_bounds_witness :
  parseOsuFile sampleChart = Return sampleMap
  /\ longNoteCount sampleMap <= noteCount sampleMap.
Proof.
  split; [vm_compute; reflexivity|].
  refine (proj1 (summary_bounds sampleChart sampleMap _)).
  vm_compute; reflexivity.
Defined.
